(** * The [@for] tracking demo: a shallow embedding of [app.ts]

    The component [App] keeps a list of ten items in a signal, replaces the
    list every three seconds (increment or shuffle), and hands the host
    framework a tracking key per item through [trackByFn].  The embedding
    below follows the component member by member.

    Modelling conventions.
    - JavaScript objects have identity: every item literal [{id, value}]
      evaluated by the program allocates a new cell in [heap]; an array holds
      the addresses of its items.  No statement of the program assigns to a
      field of an existing item.
    - [id] and [value] are JavaScript numbers that only ever hold small
      integers (the program starts from 0..9 and adds 1 per tick); they are
      modelled in [Z].  The sum [n + 1] of the model is the sum of double
      arithmetic as long as [n] is a safe integer ([js_add_safe]); statements
      about the sum for an arbitrary snapshot carry that bound.
    - The router keeps the query parameters of its own current URL
      ([routerParams]), which is empty until its first navigation; the
      location of the page ([queryParams]) is what the constructor reads.
    - Methods thread the component state through a state-and-failure monad
      [M]; failure stands for a dereference of an address that was never
      allocated, which no reachable state exhibits. *)

From Stdlib Require Import ZArith Lia.
From stdpp Require Import gmap strings list list_numbers.

Open Scope string_scope.
Open Scope Z_scope.
Open Scope list_scope.

(** ** Data model *)

(** [{ id: number; value: number }] *)
Record Item := { id : Z; value : Z }.

Global Instance Item_eq_dec : EqDecision Item.
Proof. solve_decision. Defined.

(** Address of an item object. *)
Abbreviation loc := nat (only parsing).

(** What [trackByFn] can return: a number, an object reference, or
    [undefined] when no [case] of its [switch] matches. *)
Inductive Key :=
  | KNum (n : Z)
  | KRef (l : loc)
  | KUndefined.

Global Instance Key_eq_dec : EqDecision Key.
Proof. solve_decision. Defined.

(** Callbacks handed to [afterNextRender]; [CbResetPublish] is the arrow
    function of [reset]. *)
Inductive Callback :=
  | CbResetPublish.

(** Callbacks handed to [setInterval]; [CbMutationTick] is the arrow function
    of the constructor. *)
Inductive TimerCallback :=
  | CbMutationTick.

(** Observable effects, in the order they happen. *)
Inductive Event :=
  | EvPublish (snapshot : list loc)   (* [this.arr.set(snapshot)] *)
  | EvRegistryClear                   (* [elements.clear()] *)
  | EvPaint.                          (* a render of the host completes *)

Global Instance Event_eq_dec : EqDecision Event.
Proof. solve_decision. Defined.

(** The component together with the parts of the host it talks to. *)
Record World := {
  heap : list Item;                       (* item objects, by address *)
  arr : list loc;                         (* value of the [arr] signal *)
  trackingStrategy : string;
  domStrategy : string;
  changeStrategy : string;
  elementRegistry : gmap nat string;      (* [ElementRegistry.elements] *)
  pendingAfterNextRender : list Callback; (* registered, not yet run *)
  intervals : list (TimerCallback * Z);   (* live interval timers, with period *)
  queryParams : list (string * string);   (* query part of the location *)
  routerParams : list (string * string);  (* query of the router's current URL *)
  effectScheduled : bool;                 (* the constructor's effect must run *)
  randomCalls : nat;                      (* [Math.random()] calls so far *)
  log : list Event
}.

Definition set_heap (h : list Item) (w : World) : World :=
  {| heap := h; arr := arr w; trackingStrategy := trackingStrategy w;
     domStrategy := domStrategy w; changeStrategy := changeStrategy w;
     elementRegistry := elementRegistry w;
     pendingAfterNextRender := pendingAfterNextRender w;
     intervals := intervals w; queryParams := queryParams w;
     routerParams := routerParams w;
     effectScheduled := effectScheduled w;
     randomCalls := randomCalls w; log := log w |}.

Definition set_arr (xs : list loc) (w : World) : World :=
  {| heap := heap w; arr := xs; trackingStrategy := trackingStrategy w;
     domStrategy := domStrategy w; changeStrategy := changeStrategy w;
     elementRegistry := elementRegistry w;
     pendingAfterNextRender := pendingAfterNextRender w;
     intervals := intervals w; queryParams := queryParams w;
     routerParams := routerParams w;
     effectScheduled := effectScheduled w;
     randomCalls := randomCalls w; log := log w |}.

Definition set_trackingStrategy (s : string) (w : World) : World :=
  {| heap := heap w; arr := arr w; trackingStrategy := s;
     domStrategy := domStrategy w; changeStrategy := changeStrategy w;
     elementRegistry := elementRegistry w;
     pendingAfterNextRender := pendingAfterNextRender w;
     intervals := intervals w; queryParams := queryParams w;
     routerParams := routerParams w;
     effectScheduled := effectScheduled w;
     randomCalls := randomCalls w; log := log w |}.

Definition set_domStrategy (s : string) (w : World) : World :=
  {| heap := heap w; arr := arr w; trackingStrategy := trackingStrategy w;
     domStrategy := s; changeStrategy := changeStrategy w;
     elementRegistry := elementRegistry w;
     pendingAfterNextRender := pendingAfterNextRender w;
     intervals := intervals w; queryParams := queryParams w;
     routerParams := routerParams w;
     effectScheduled := effectScheduled w;
     randomCalls := randomCalls w; log := log w |}.

Definition set_changeStrategy (s : string) (w : World) : World :=
  {| heap := heap w; arr := arr w; trackingStrategy := trackingStrategy w;
     domStrategy := domStrategy w; changeStrategy := s;
     elementRegistry := elementRegistry w;
     pendingAfterNextRender := pendingAfterNextRender w;
     intervals := intervals w; queryParams := queryParams w;
     routerParams := routerParams w;
     effectScheduled := effectScheduled w;
     randomCalls := randomCalls w; log := log w |}.

Definition set_elementRegistry (m : gmap nat string) (w : World) : World :=
  {| heap := heap w; arr := arr w; trackingStrategy := trackingStrategy w;
     domStrategy := domStrategy w; changeStrategy := changeStrategy w;
     elementRegistry := m;
     pendingAfterNextRender := pendingAfterNextRender w;
     intervals := intervals w; queryParams := queryParams w;
     routerParams := routerParams w;
     effectScheduled := effectScheduled w;
     randomCalls := randomCalls w; log := log w |}.

Definition set_pendingAfterNextRender (cs : list Callback) (w : World) : World :=
  {| heap := heap w; arr := arr w; trackingStrategy := trackingStrategy w;
     domStrategy := domStrategy w; changeStrategy := changeStrategy w;
     elementRegistry := elementRegistry w;
     pendingAfterNextRender := cs;
     intervals := intervals w; queryParams := queryParams w;
     routerParams := routerParams w;
     effectScheduled := effectScheduled w;
     randomCalls := randomCalls w; log := log w |}.

Definition set_intervals (ts : list (TimerCallback * Z)) (w : World) : World :=
  {| heap := heap w; arr := arr w; trackingStrategy := trackingStrategy w;
     domStrategy := domStrategy w; changeStrategy := changeStrategy w;
     elementRegistry := elementRegistry w;
     pendingAfterNextRender := pendingAfterNextRender w;
     intervals := ts; queryParams := queryParams w;
     routerParams := routerParams w;
     effectScheduled := effectScheduled w;
     randomCalls := randomCalls w; log := log w |}.

Definition set_queryParams (q : list (string * string)) (w : World) : World :=
  {| heap := heap w; arr := arr w; trackingStrategy := trackingStrategy w;
     domStrategy := domStrategy w; changeStrategy := changeStrategy w;
     elementRegistry := elementRegistry w;
     pendingAfterNextRender := pendingAfterNextRender w;
     intervals := intervals w; queryParams := q;
     routerParams := routerParams w;
     effectScheduled := effectScheduled w;
     randomCalls := randomCalls w; log := log w |}.

Definition set_routerParams (q : list (string * string)) (w : World) : World :=
  {| heap := heap w; arr := arr w; trackingStrategy := trackingStrategy w;
     domStrategy := domStrategy w; changeStrategy := changeStrategy w;
     elementRegistry := elementRegistry w;
     pendingAfterNextRender := pendingAfterNextRender w;
     intervals := intervals w; queryParams := queryParams w;
     routerParams := q;
     effectScheduled := effectScheduled w;
     randomCalls := randomCalls w; log := log w |}.

Definition set_randomCalls (n : nat) (w : World) : World :=
  {| heap := heap w; arr := arr w; trackingStrategy := trackingStrategy w;
     domStrategy := domStrategy w; changeStrategy := changeStrategy w;
     elementRegistry := elementRegistry w;
     pendingAfterNextRender := pendingAfterNextRender w;
     intervals := intervals w; queryParams := queryParams w;
     routerParams := routerParams w;
     effectScheduled := effectScheduled w;
     randomCalls := n; log := log w |}.

Definition set_effectScheduled (b : bool) (w : World) : World :=
  {| heap := heap w; arr := arr w; trackingStrategy := trackingStrategy w;
     domStrategy := domStrategy w; changeStrategy := changeStrategy w;
     elementRegistry := elementRegistry w;
     pendingAfterNextRender := pendingAfterNextRender w;
     intervals := intervals w; queryParams := queryParams w;
     routerParams := routerParams w;
     effectScheduled := b;
     randomCalls := randomCalls w; log := log w |}.

Definition log_event (e : Event) (w : World) : World :=
  {| heap := heap w; arr := arr w; trackingStrategy := trackingStrategy w;
     domStrategy := domStrategy w; changeStrategy := changeStrategy w;
     elementRegistry := elementRegistry w;
     pendingAfterNextRender := pendingAfterNextRender w;
     intervals := intervals w; queryParams := queryParams w;
     routerParams := routerParams w;
     effectScheduled := effectScheduled w;
     randomCalls := randomCalls w; log := log w ++ [e] |}.

(** ** The state-and-failure monad *)

Definition M (A : Type) : Type := World → option (A * World).

Global Instance M_ret : MRet M := λ A x w, Some (x, w).
Global Instance M_bind : MBind M := λ A B f m w,
  match m w with
  | Some (x, w') => f x w'
  | None => None
  end.

Definition gets {A} (f : World → A) : M A := λ w, Some (f w, w).
Definition modify (f : World → World) : M unit := λ w, Some (tt, f w).
Definition fail {A} : M A := λ _, None.

(** Evaluating an item literal: a new object at the next free address. *)
Definition alloc (it : Item) : M loc :=
  h ← gets heap;
  modify (set_heap (h ++ [it]));;
  mret (length h).

(** Reading through a reference. *)
Definition deref (l : loc) : M Item :=
  h ← gets heap;
  match h !! l with
  | Some it => mret it
  | None => fail
  end.

(** [Array.from({ length: 10 }).map((_, i) => ({ id: i, value: i }))] *)
Definition fresh_snapshot : M (list loc) :=
  mapM (λ i, alloc {| id := i; value := i |}) (seqZ 0 10).

(** ** Host primitives used by the component *)

(** [signal.set(v)] on [arr]; the signal is declared with
    [equal: () => false], so every call publishes. *)
Definition arr_set (xs : list loc) : M unit :=
  modify (set_arr xs);;
  modify (log_event (EvPublish xs)).

(** [this.elementRegistry.elements.clear()] *)
Definition elements_clear : M unit :=
  modify (set_elementRegistry ∅);;
  modify (log_event EvRegistryClear).

(** [afterNextRender(cb, { injector })]: [cb] is queued and runs once, after
    the next render. *)
Definition afterNextRender (cb : Callback) : M unit :=
  cs ← gets pendingAfterNextRender;
  modify (set_pendingAfterNextRender (cs ++ [cb])).

(** [setInterval(cb, period)]; the handle it returns is the position of the
    timer in [intervals]. *)
Definition setInterval (cb : TimerCallback) (period : Z) : M nat :=
  ts ← gets intervals;
  modify (set_intervals (ts ++ [(cb, period)]));;
  mret (length ts).

(** [URLSearchParams.get(name)]: the first value stored under [name], or
    [null]. *)
Fixpoint URLSearchParams_get (params : list (string * string)) (name : string)
  : option string :=
  match params with
  | [] => None
  | (k, v) :: rest =>
      if String.eqb k name then Some v else URLSearchParams_get rest name
  end.

(** [v || d] for [v : string | null]: [null] and the empty string are the
    falsy values. *)
Definition or_default (v : option string) (d : string) : string :=
  match v with
  | Some s => if String.eqb s "" then d else s
  | None => d
  end.

(** [queryParamsHandling: 'merge'] for one parameter: an existing entry is
    overwritten, a new one is added. *)
Fixpoint merge_param (k v : string) (q : list (string * string))
  : list (string * string) :=
  match q with
  | [] => [(k, v)]
  | (k', v') :: rest =>
      if String.eqb k' k then (k, v) :: rest else (k', v') :: merge_param k v rest
  end.

(** ** A sort engine for experiments

    [Array.prototype.sort] belongs to the JavaScript engine.  The comparator
    the program passes ignores its two arguments, so an engine is driven by
    the sequence of numbers the comparator returns: [answers k] is the result
    of the [k]-th comparator call.  An engine returns the sorted array and
    the number of comparator calls it made.  [insertion_engine] is one such
    engine, a plain insertion sort. *)

Definition SortEngine : Type := (nat → Z) → list loc → list loc * nat.

Fixpoint insert_by (answers : nat → Z) (calls : nat) (x : loc) (ys : list loc)
  : list loc * nat :=
  match ys with
  | [] => ([x], calls)
  | y :: ys' =>
      if answers calls <? 0 then (x :: y :: ys', S calls)
      else
        let '(r, calls') := insert_by answers (S calls) x ys' in
        (y :: r, calls')
  end.

Fixpoint insertion_from (answers : nat → Z) (calls : nat) (xs : list loc)
  : list loc * nat :=
  match xs with
  | [] => ([], calls)
  | x :: xs' =>
      let '(sorted, calls') := insertion_from answers calls xs' in
      insert_by answers calls' x sorted
  end.

Definition insertion_engine : SortEngine :=
  λ answers xs, insertion_from answers 0%nat xs.

(** The sort of the V8 engine (the one of Chrome and Node) on arrays shorter
    than 64 elements, where its merge sort is a single run: it takes the
    longest run at the front that the comparator reports as ascending or as
    strictly descending, reverses it if descending, and places the remaining
    elements one by one by binary search. *)

(** The run goes on over [rest] further elements while the answers agree
    with its direction; the answer that ends it is consumed. *)
Fixpoint run_extends (answers : nat → Z) (descending : bool) (calls rest : nat)
  : nat * nat :=
  match rest with
  | O => (0%nat, calls)
  | S rest' =>
      if bool_decide ((answers calls <? 0) = descending) then
        let '(r, c) := run_extends answers descending (S calls) rest' in
        (S r, c)
      else (0%nat, S calls)
  end.

(** [CountAndMakeRun]: the array with its first run made ascending, the
    length of the run, and the number of comparator calls. *)
Definition count_and_make_run (answers : nat → Z) (xs : list loc)
  : list loc * nat * nat :=
  if (length xs <? 2)%nat then (xs, length xs, 0%nat)
  else
    let descending := answers 0%nat <? 0 in
    let '(r, c) := run_extends answers descending 1 (length xs - 2) in
    let run := (2 + r)%nat in
    ((if descending then reverse (take run xs) else take run xs)
       ++ drop run xs, run, c).

(** The binary search of [BinaryInsertionSort]: the pivot goes before the
    middle element when the comparator answers a negative number, after it
    otherwise. *)
Fixpoint insertion_point (answers : nat → Z) (calls lo hi fuel : nat)
  : nat * nat :=
  match fuel with
  | O => (lo, calls)
  | S fuel' =>
      if (lo <? hi)%nat then
        let mid := (lo + (hi - lo) / 2)%nat in
        if answers calls <? 0 then
          insertion_point answers (S calls) lo mid fuel'
        else insertion_point answers (S calls) (S mid) hi fuel'
      else (lo, calls)
  end.

(** [BinaryInsertionSort]: the elements from position [start] on are
    inserted, one after the other, into the part before them. *)
Fixpoint binary_insertion (answers : nat → Z) (calls start steps : nat)
    (xs : list loc) : list loc * nat :=
  match steps with
  | O => (xs, calls)
  | S steps' =>
      match xs !! start with
      | None => (xs, calls)
      | Some pivot =>
          let '(pos, c) := insertion_point answers calls 0 start start in
          binary_insertion answers c (S start) steps'
            (take pos xs ++ pivot :: take (start - pos) (drop pos xs)
               ++ drop (S start) xs)
      end
  end.

Definition v8_engine : SortEngine :=
  λ answers xs,
    let '(ys, run, c) := count_and_make_run answers xs in
    binary_insertion answers c run (length xs - run) ys.

(** ** The component [App] *)

Section App.

(** The engine's [Array.prototype.sort]. *)
Variable Array_sort : SortEngine.

(** [rnd n] is the [n]-th result of [Math.random()], as a numerator over
    [2^53]: the result is [rnd n / 2^53], in [[0, 1)]. *)
Variable rnd : nat → Z.

(** [xs.sort((a, b) => 0.5 - Math.random())].  The comparator result is
    kept in units of [2^-53], where [0.5] is [2^52]; the subtraction is
    exact in double arithmetic. *)
Definition sort_random (xs : list loc) : M (list loc) :=
  n ← gets randomCalls;
  let '(sorted, calls) := Array_sort (λ k, 2 ^ 52 - rnd (n + k)) xs in
  modify (set_randomCalls (n + calls));;
  mret sorted.

(** The arrow function passed to [setInterval]. *)
Definition mutation_tick : M unit :=
  cs ← gets changeStrategy;
  if String.eqb cs "increment" then
    xs ← gets arr;
    ys ← mapM (λ item, it ← deref item;
                       alloc {| id := id it + 1; value := value it + 1 |}) xs;
    arr_set ys
  else
    xs ← gets arr;
    newArr ← sort_random xs;
    arr_set newArr.

(** [reset()] *)
Definition reset : M unit :=
  arr_set [];;
  afterNextRender CbResetPublish;;
  elements_clear.

(** The body of the callback [reset] hands to [afterNextRender]. *)
Definition run_callback (cb : Callback) : M unit :=
  match cb with
  | CbResetPublish => xs ← fresh_snapshot; arr_set xs
  end.

(** [router.navigate([], { queryParams, queryParamsHandling: 'merge' })].
    The router merges the given parameters into the query of its own current
    URL, not into the page location; that query is empty until the router
    has navigated, so the first call leaves the location with the three
    selections only.  The URL the router navigates to becomes its current
    URL and the page location. *)
Definition router_navigate : M unit :=
  t ← gets trackingStrategy;
  d ← gets domStrategy;
  c ← gets changeStrategy;
  q ← gets routerParams;
  modify (set_routerParams
            (merge_param "change" c
               (merge_param "dom" d (merge_param "tracking" t q))));;
  q' ← gets routerParams;
  modify (set_queryParams q').

(** The body of the constructor's [effect]. *)
Definition effect_body : M unit :=
  reset;;
  router_navigate.

(** Field initialisers and constructor of [App]; [window.location.search]
    is the query part of the location, already split into pairs. *)
Definition App_constructor : M unit :=
  xs ← fresh_snapshot;
  modify (set_arr xs);;
  params ← gets queryParams;
  modify (set_trackingStrategy
            (or_default (URLSearchParams_get params "tracking") "index"));;
  modify (set_domStrategy
            (or_default (URLSearchParams_get params "dom") "stateless"));;
  modify (set_changeStrategy
            (or_default (URLSearchParams_get params "change") "increment"));;
  modify (set_effectScheduled true);;
  setInterval CbMutationTick 3000;;
  mret tt.

(** [onTrackingStrategyChange], [onDomStrategyChange],
    [onChangeStrategyChange]: a signal that receives a different value
    schedules the effect that read it. *)
Definition onTrackingStrategyChange (strategy : string) : M unit :=
  old ← gets trackingStrategy;
  modify (set_trackingStrategy strategy);;
  if String.eqb old strategy then mret tt
  else modify (set_effectScheduled true).

Definition onDomStrategyChange (strategy : string) : M unit :=
  old ← gets domStrategy;
  modify (set_domStrategy strategy);;
  if String.eqb old strategy then mret tt
  else modify (set_effectScheduled true).

Definition onChangeStrategyChange (strategy : string) : M unit :=
  old ← gets changeStrategy;
  modify (set_changeStrategy strategy);;
  if String.eqb old strategy then mret tt
  else modify (set_effectScheduled true).

(** [trackByFn] *)
Definition trackByFn (index : Z) (item : loc) : M Key :=
  s ← gets trackingStrategy;
  if String.eqb s "index" then mret (KNum index)
  else if String.eqb s "id" then it ← deref item; mret (KNum (id it))
  else if String.eqb s "identity" then mret (KRef item)
  else mret KUndefined.

(** ** The host: rendering, timers, teardown *)

(** The keys the [@for] block computes for the current snapshot:
    [trackByFn($index, item)] for each item in order. *)
Definition snapshot_keys : M (list Key) :=
  xs ← gets arr;
  mapM (λ p : nat * loc, trackByFn (Z.of_nat p.1) p.2) (imap pair xs).

(** One render of the host completes, then the callbacks queued by
    [afterNextRender] run, once each, in registration order. *)
Definition render : M unit :=
  modify (log_event EvPaint);;
  cs ← gets pendingAfterNextRender;
  modify (set_pendingAfterNextRender []);;
  mapM run_callback cs;;
  mret tt.

(** One change detection pass: a scheduled effect runs first, then the
    view is rendered. *)
Definition change_detection : M unit :=
  b ← gets effectScheduled;
  (if b : bool then modify (set_effectScheduled false);; effect_body
   else mret tt : M unit);;
  render.

Definition run_timer (t : TimerCallback * Z) : M unit :=
  match t.1 with
  | CbMutationTick => mutation_tick
  end.

(** One period elapses: every live interval timer fires. *)
Definition interval_elapsed : M unit :=
  ts ← gets intervals;
  mapM run_timer ts;;
  mret tt.

(** [clearInterval(handle)], the only way a timer leaves [intervals].  No
    member of [App] calls it. *)
Definition clearInterval (handle : nat) : M unit :=
  ts ← gets intervals;
  modify (set_intervals (delete handle ts)).

(** The view is torn down.  The host releases what it owns (the effect and
    the queued render callbacks) and would call the component's destroy
    hooks; [App] declares none. *)
Definition destroy : M unit :=
  modify (set_effectScheduled false);;
  modify (set_pendingAfterNextRender []).

(** [n] consecutive mutation ticks. *)
Fixpoint ticks (n : nat) : M unit :=
  match n with
  | O => mret tt
  | S n' => mutation_tick;; ticks n'
  end.

End App.

(** The page before the component exists: only the location is there. *)
Definition boot (search : list (string * string)) : World :=
  {| heap := []; arr := []; trackingStrategy := ""; domStrategy := "";
     changeStrategy := ""; elementRegistry := ∅;
     pendingAfterNextRender := []; intervals := [];
     queryParams := search; routerParams := [];
     effectScheduled := false;
     randomCalls := 0%nat; log := [] |}.

(** The world right after the constructor has run on a page whose location
    carries the query [search]. *)
Definition started (search : list (string * string)) : World :=
  match App_constructor (boot search) with
  | Some (_, w) => w
  | None => boot search
  end.

(** A random source that always returns 0. *)
Definition rnd_zero : nat → Z := λ _, 0.

(** ** Observations on a world *)

(** The final world of a computation. *)
Definition exec {A} (m : M A) (w : World) : option World :=
  snd <$> m w.

(** The items the current snapshot refers to, in order. *)
Definition items (w : World) : option (list Item) :=
  mapM (λ l : loc, heap w !! l) (arr w).

(** The keys of the current snapshot. *)
Definition keys (w : World) : option (list Key) :=
  fst <$> snapshot_keys w.

(** Every reference held by the snapshot points at an allocated object. *)
Definition allocated (w : World) : Prop :=
  Forall (λ l : loc, (l < length (heap w))%nat) (arr w).

(** [{ id: i, value: i }] for [i] in [[from, from + 10)]. *)
Definition ten_items (from : Z) : list Item :=
  (λ i, {| id := i; value := i |}) <$> seqZ from 10.

(** [Number.isSafeInteger]: the integers of magnitude below [2^53].  A
    JavaScript number that holds one holds it exactly, and adding 1 to it in
    double arithmetic gives the integer sum. *)
Definition safe_integer (n : Z) : Prop := - 2 ^ 53 < n < 2 ^ 53.

(** The double nearest to the integer [x] (ties go to the even
    significand), for magnitudes below the overflow threshold: doubles have
    53 significant bits. *)
Definition double_round (x : Z) : Z :=
  let m := Z.abs x in
  if m <? 2 ^ 53 then x
  else
    let u := 2 ^ (Z.log2 m - 52) in
    let q := m / u in
    let r := m mod u in
    let q' := if 2 * r <? u then q
              else if u <? 2 * r then q + 1
              else if Z.even q then q else q + 1 in
    Z.sgn x * (q' * u).

(** [a + b] on JavaScript numbers that hold the integers [a] and [b]. *)
Definition js_add (a b : Z) : Z := double_round (a + b).

(** The item an increment tick builds from [it]. *)
Definition incremented (it : Item) : Item :=
  {| id := id it + 1; value := value it + 1 |}.

(** ** The reconciler contract *)

(** Modelled from the spec: the keyed list reconciler of the host framework
    is not part of the repository.  Section 6 of the specification gives its
    contract on the keys of the previous and the current render: a key
    present in both is reused, a key present only in the previous render is
    destroyed, a key present only in the current render is created.  Two
    keys are the same when they are the same number or the same object. *)
Definition reused (prev cur : list Key) : list Key :=
  filter (λ k, k ∈ prev) cur.

Definition destroyed (prev cur : list Key) : list Key :=
  filter (λ k, k ∉ cur) prev.

Definition created (prev cur : list Key) : list Key :=
  filter (λ k, k ∉ prev) cur.

(** ** Randomness of the shuffle *)

(** The values a [Math.random()] of resolution [bits] can return, as
    numerators over [2^53]: the multiples of [2^(53 - bits)] below [2^53],
    all equally likely. *)
Definition draws (bits : nat) : list Z :=
  (λ k, k * 2 ^ (53 - Z.of_nat bits)) <$> seqZ 0 (2 ^ Z.of_nat bits).

(** All sequences of [n] draws. *)
Fixpoint tapes (bits n : nat) : list (list Z) :=
  match n with
  | O => [[]]
  | S n' => d ← draws bits; (λ t, d :: t) <$> tapes bits n'
  end.

(** The random source that replays the tape [t]. *)
Definition tape_rnd (t : list Z) : nat → Z :=
  λ n, default 0 (t !! n).

(** The snapshot a shuffle tick publishes when [Math.random()] replays [t]. *)
Definition shuffled (sort : SortEngine) (t : list Z) (w : World)
  : option (list loc) :=
  arr <$> exec (mutation_tick sort (tape_rnd t)) w.

(** How many tapes of [n] draws make the shuffle of [w] publish [p]. *)
Definition tapes_giving (sort : SortEngine) (bits n : nat) (w : World)
  (p : list loc) : nat :=
  length (filter (λ t, shuffled sort t w = Some p) (tapes bits n)).

Fixpoint factZ (n : nat) : Z :=
  match n with
  | O => 1
  | S n' => Z.of_nat n * factZ n'
  end.

(** The order [p] comes out of at least [factor] times as many tapes as an
    even split among the [length!] orders of the snapshot would give it. *)
Definition over_share (factor : Z) (sort : SortEngine) (bits n : nat)
    (w : World) (p : list loc) : Prop :=
  factor * Z.of_nat (length (tapes bits n))
  ≤ Z.of_nat (tapes_giving sort bits n w p) * factZ (length (arr w)).

(** The first [m] draws of a tape, as far as it has them, are at most one
    half: the comparator answers [0.5 - draw >= 0]. *)
Fixpoint low_prefix (m : nat) (t : list Z) : bool :=
  match m, t with
  | S m', d :: t' => (d <=? 2 ^ 52) && low_prefix m' t'
  | _, _ => true
  end.

(** A world with a three-item snapshot under the shuffle strategy, small
    enough to enumerate every tape. *)
Definition three_items : World :=
  set_changeStrategy "shuffle"
    (set_arr [0; 1; 2]%nat
       (set_heap [{| id := 0; value := 0 |}; {| id := 1; value := 1 |};
                  {| id := 2; value := 2 |}] (boot []))).

(** ** Order of effects in the log *)

(** Some non-empty snapshot is published strictly before the registry is
    cleared. *)
Definition clear_follows_publish (tr : list Event) : Prop :=
  ∃ (i j : nat) (xs : list loc),
    tr !! i = Some (EvPublish xs) ∧ xs ≠ [] ∧
    tr !! j = Some EvRegistryClear ∧ (i < j)%nat.

(** The names a strategy selection is meant to take. *)
Definition known_tracking : list string := ["index"; "identity"; "id"].
Definition known_dom : list string := ["stateless"; "stateful"].
Definition known_change : list string := ["increment"; "shuffle"].

(** ** More of the component *)

(** [trackingString]: the expression shown in the page for the current
    tracking strategy; [None] is [undefined], when no [case] matches. *)
Definition trackingString : M (option string) :=
  s ← gets trackingStrategy;
  if String.eqb s "index" then mret (Some "$index")
  else if String.eqb s "id" then mret (Some "item.id")
  else if String.eqb s "identity" then mret (Some "item")
  else mret None.

(** The three selections of a world. *)
Definition selections (w : World) : string * string * string :=
  (trackingStrategy w, domStrategy w, changeStrategy w).

(** What can happen to the page once the component exists. *)
Inductive Action :=
  | ActPeriod                           (* the timer period elapses *)
  | ActChangeDetection                  (* a change detection pass *)
  | ActReset                            (* [reset()] on its own *)
  | ActRender                           (* a render on its own *)
  | ActTracking (strategy : string)     (* a click in the tracking group *)
  | ActDom (strategy : string)          (* a click in the DOM group *)
  | ActChange (strategy : string)       (* a click in the change group *)
  | ActDestroy.                         (* the view is torn down *)

Definition perform (sort : SortEngine) (rnd : nat → Z) (a : Action) : M unit :=
  match a with
  | ActPeriod => interval_elapsed sort rnd
  | ActChangeDetection => change_detection
  | ActReset => reset
  | ActRender => render
  | ActTracking s => onTrackingStrategyChange s
  | ActDom s => onDomStrategyChange s
  | ActChange s => onChangeStrategyChange s
  | ActDestroy => destroy
  end.

Fixpoint perform_all (sort : SortEngine) (rnd : nat → Z) (acts : list Action)
  : M unit :=
  match acts with
  | [] => mret tt
  | a :: rest => perform sort rnd a;; perform_all sort rnd rest
  end.

(** The world [n] ticks after the constructor, with the insertion engine. *)
Definition after_ticks (n : nat) (search : list (string * string)) : World :=
  match ticks insertion_engine rnd_zero n (started search) with
  | Some (_, w) => w
  | None => started search
  end.

(** ** The directive [Tracked] *)

(** What the directive reads and writes of its host element: the rendered
    text, the value of the first [input] it contains (if any), and the class
    list. *)
Record Element := {
  innerText : string;
  inputValue : option string;
  classList : gset string
}.

(** The page: the component world, the elements by handle, and the pending
    [setTimeout] callbacks.  Every timeout of the directive has the same
    delay, so they fire in the order they were set; each removes a class
    from an element. *)
Record Page := {
  world : World;
  elements : gmap nat Element;
  timeouts : list (nat * string)
}.

(** [classList.add(c)] and [classList.remove(c)] *)
Definition classList_add (c : string) (e : Element) : Element :=
  {| innerText := innerText e; inputValue := inputValue e;
     classList := {[c]} ∪ classList e |}.

Definition classList_remove (c : string) (e : Element) : Element :=
  {| innerText := innerText e; inputValue := inputValue e;
     classList := classList e ∖ {[c]} |}.

(** [getDomValue()]: [innerText || querySelector('input')?.value]; [None] is
    [undefined]. *)
Definition getDomValue (e : Element) : option string :=
  if String.eqb (innerText e) "" then inputValue e else Some (innerText e).

(** [getDomValue()] of the element behind a handle. *)
Definition domValue (el : nat) (p : Page) : option string :=
  e ← elements p !! el; getDomValue e.

(** [addClass(className)] *)
Definition addClass (el : nat) (className : string) (p : Page) : Page :=
  {| world := world p;
     elements := alter (classList_add className) el (elements p);
     timeouts := timeouts p ++ [(el, className)] |}.

(** [elements.set(el, v)].  The program reads the map through [get] only,
    which answers [undefined] for a missing key and for a key that holds
    [undefined] alike; storing [undefined] is modelled as removing the
    key. *)
Definition registry_set (el : nat) (v : option string) (p : Page) : Page :=
  {| world :=
       set_elementRegistry
         (match v with
          | Some s => <[el := s]> (elementRegistry (world p))
          | None => delete el (elementRegistry (world p))
          end) (world p);
     elements := elements p;
     timeouts := timeouts p |}.

(** The callback the directive hands to [afterEveryRender]. *)
Definition afterEveryRender_hook (el : nat) (p : Page) : Page :=
  let newText := domValue el p in
  let oldText := elementRegistry (world p) !! el in
  if decide (newText = oldText) then p
  else addClass el "binding-highlight" p.

(** The callback the directive hands to [afterNextRender]. *)
Definition afterNextRender_hook (el : nat) (p : Page) : Page :=
  addClass el "halo-active" (registry_set el (domValue el p) p).

(** The oldest pending timeout fires. *)
Definition timeout_fires (p : Page) : Page :=
  match timeouts p with
  | [] => p
  | (el, c) :: rest =>
      {| world := world p;
         elements := alter (classList_remove c) el (elements p);
         timeouts := rest |}
  end.

(** A method of the component runs on the page. *)
Definition on_world (m : M unit) (p : Page) : Page :=
  match m (world p) with
  | Some (_, w) =>
      {| world := w; elements := elements p; timeouts := timeouts p |}
  | None => p
  end.

(** What can happen to the elements of a page. *)
Inductive DomEvent :=
  | DomEveryRender (el : nat)            (* the every-render callback of [el] *)
  | DomFirstRender (el : nat)            (* the next-render callback of [el] *)
  | DomTimeout                           (* the oldest timeout fires *)
  | DomText (el : nat) (text : string)   (* a binding rewrites the text *)
  | DomInput (el : nat) (v : string)     (* the value of the input changes *)
  | DomCreate (el : nat) (text : string) (input : option string)
                                         (* a new element, without classes *)
  | DomReset.                            (* [reset()] of the component *)

Definition set_text (text : string) (e : Element) : Element :=
  {| innerText := text; inputValue := inputValue e; classList := classList e |}.

Definition set_input (v : string) (e : Element) : Element :=
  {| innerText := innerText e;
     inputValue := match inputValue e with Some _ => Some v | None => None end;
     classList := classList e |}.

Definition dom_step (ev : DomEvent) (p : Page) : Page :=
  match ev with
  | DomEveryRender el => afterEveryRender_hook el p
  | DomFirstRender el => afterNextRender_hook el p
  | DomTimeout => timeout_fires p
  | DomText el text =>
      {| world := world p; elements := alter (set_text text) el (elements p);
         timeouts := timeouts p |}
  | DomInput el v =>
      {| world := world p; elements := alter (set_input v) el (elements p);
         timeouts := timeouts p |}
  | DomCreate el text input =>
      {| world := world p;
         elements := <[el := {| innerText := text; inputValue := input;
                                classList := ∅ |}]> (elements p);
         timeouts := timeouts p |}
  | DomReset => on_world reset p
  end.

Definition dom_steps (evs : list DomEvent) (p : Page) : Page :=
  foldl (λ q ev, dom_step ev q) p evs.

(** All pending timeouts fire. *)
Definition drain (p : Page) : Page :=
  Nat.iter (length (timeouts p)) timeout_fires p.

(** The shape of the worlds the page goes through: the snapshot holds
    distinct allocated references, it is empty or refers to ten items whose
    ids are [a .. a+9] in some order with [value = id], and the timer of the
    constructor is the only interval timer. *)
Definition steady (w : World) : Prop :=
  allocated w ∧ NoDup (arr w) ∧
  intervals w = [(CbMutationTick, 3000)] ∧
  (arr w = [] ∨ ∃ a its, 0 ≤ a ∧ items w = Some its ∧ its ≡ₚ ten_items a).

(** A method keeps the page steady when, from a steady world, it returns a
    steady world whose heap extends the old one. *)
Definition keeps_steady (m : M unit) : Prop :=
  ∀ w, steady w →
    ∃ w', m w = Some (tt, w') ∧ steady w' ∧ heap w `prefix_of` heap w'.

(** Every class an element carries has a pending timeout that removes
    it. *)
Definition pending_covers (p : Page) : Prop :=
  ∀ (el : nat) (e : Element) (c : string),
    elements p !! el = Some e → c ∈ classList e → (el, c) ∈ timeouts p.

(** A page on which nothing has been rendered yet. *)
Definition blank_page (w : World) : Page :=
  {| world := w; elements := ∅; timeouts := [] |}.

(** A page with one element, handle 0, that shows [text] and has no input
    and no class; [recorded] is what the registry holds for it. *)
Definition page_showing (text : string) (recorded : option string) : Page :=
  {| world :=
       set_elementRegistry
         (match recorded with Some s => {[ 0%nat := s ]} | None => ∅ end)
         (started []);
     elements := {[ 0%nat := {| innerText := text; inputValue := None;
                                classList := ∅ |} ]};
     timeouts := [] |}.

(** * Properties *)

(** ** Running the monad *)

Ltac munfold :=
  unfold mbind, M_bind, mret, M_ret, gets, modify, fail in *.

Lemma set_heap_id w : set_heap (heap w) w = w.
Proof. by destruct w. Qed.

Lemma mapM_nil_run {A B} (f : A → M B) w : mapM f [] w = Some ([], w).
Proof. reflexivity. Qed.

Lemma mapM_cons_run {A B} (f : A → M B) x l w :
  mapM f (x :: l) w
  = match f x w with
    | Some (y, w1) =>
        match mapM f l w1 with
        | Some (k, w2) => Some (y :: k, w2)
        | None => None
        end
    | None => None
    end.
Proof. reflexivity. Qed.

Lemma alloc_run it w :
  alloc it w = Some (length (heap w), set_heap (heap w ++ [it]) w).
Proof. reflexivity. Qed.

(** Allocating a batch of literals extends the heap by the batch and returns
    consecutive new addresses. *)
Lemma mapM_alloc (f : Z → Item) (l : list Z) (w : World) :
  mapM (λ i, alloc (f i)) l w
  = Some (seq (length (heap w)) (length l), set_heap (heap w ++ (f <$> l)) w).
Proof.
  revert w. induction l as [|i l IH]; intros w.
  - rewrite mapM_nil_run. simpl. by rewrite app_nil_r, set_heap_id.
  - rewrite mapM_cons_run, alloc_run, IH. simpl.
    rewrite length_app. simpl. by rewrite Nat.add_1_r, <- app_assoc.
Qed.

Lemma fresh_snapshot_run w :
  fresh_snapshot w
  = Some (seq (length (heap w)) 10, set_heap (heap w ++ ten_items 0) w).
Proof. unfold fresh_snapshot. by rewrite mapM_alloc. Qed.

Lemma increment_item_run (x : loc) (it : Item) (w : World) :
  heap w !! x = Some it →
  (it ← deref x; alloc {| id := id it + 1; value := value it + 1 |}) w
  = Some (length (heap w), set_heap (heap w ++ [incremented it]) w).
Proof. intros Hx. unfold deref, alloc. munfold. simpl. by rewrite Hx. Qed.

(** The [map] of the increment branch: the old items are read through their
    references, which stay valid while the new objects are appended. *)
Lemma mapM_increment (xs : list loc) (its : list Item) (w : World) :
  Forall2 (λ (l : loc) it, heap w !! l = Some it) xs its →
  mapM (λ item, it ← deref item;
                alloc {| id := id it + 1; value := value it + 1 |}) xs w
  = Some (seq (length (heap w)) (length xs),
          set_heap (heap w ++ (incremented <$> its)) w).
Proof.
  revert its w. induction xs as [|x xs IH]; intros its w H.
  - apply Forall2_nil_inv_l in H as ->. rewrite mapM_nil_run. simpl.
    by rewrite app_nil_r, set_heap_id.
  - apply Forall2_cons_inv_l in H as (it & its' & Hx & Hxs & ->).
    rewrite mapM_cons_run, (increment_item_run x it) by done.
    rewrite (IH its').
    + simpl. rewrite length_app. simpl.
      by rewrite Nat.add_1_r, <- app_assoc.
    + simpl. eapply Forall2_impl; [exact Hxs|]. intros l i Hl. simpl in Hl.
      by apply lookup_app_l_Some.
Qed.

(** ** Snapshots and their items *)

Lemma items_Forall2 w its :
  items w = Some its ↔
  Forall2 (λ (l : loc) it, heap w !! l = Some it) (arr w) its.
Proof. unfold items. apply mapM_Some. Qed.

Lemma allocated_items w : allocated w → ∃ its, items w = Some its.
Proof.
  unfold allocated, items. induction 1 as [|l ls Hl _ [its IH]].
  - by exists [].
  - destruct (lookup_lt_is_Some_2 (heap w) l Hl) as [it Hit].
    exists (it :: its). apply mapM_Some. constructor; [done|].
    by apply mapM_Some.
Qed.

Lemma items_allocated w its : items w = Some its → allocated w.
Proof.
  rewrite items_Forall2. unfold allocated.
  induction 1 as [|l it ls its' Hl _ IH]; constructor; [|done].
  by eapply lookup_lt_Some.
Qed.

Lemma items_length w its : items w = Some its → length its = length (arr w).
Proof. rewrite items_Forall2. intros H. symmetry. by eapply Forall2_length. Qed.

(** The items behind consecutive addresses of an appended batch. *)
Lemma lookup_batch (h batch : list Item) :
  Forall2 (λ (l : loc) it, (h ++ batch) !! l = Some it)
          (seq (length h) (length batch)) batch.
Proof.
  apply Forall2_same_length_lookup_2.
  - by rewrite length_seq.
  - intros i l it Hl Hit. apply lookup_seq in Hl as [-> _].
    by rewrite lookup_app_r, Nat.add_comm, Nat.add_sub by lia.
Qed.

(** ** The key selector *)

Lemma trackByFn_index index item w :
  trackingStrategy w = "index" → trackByFn index item w = Some (KNum index, w).
Proof. intros H. unfold trackByFn. munfold. by rewrite H. Qed.

Lemma trackByFn_id index item it w :
  trackingStrategy w = "id" → heap w !! item = Some it →
  trackByFn index item w = Some (KNum (id it), w).
Proof.
  intros H Hit. unfold trackByFn, deref. munfold. rewrite H. simpl.
  by rewrite Hit.
Qed.

Lemma trackByFn_identity index item w :
  trackingStrategy w = "identity" →
  trackByFn index item w = Some (KRef item, w).
Proof. intros H. unfold trackByFn. munfold. by rewrite H. Qed.

Lemma mapM_pure_run {A B} (f : A → M B) (g : A → B) (l : list A) w :
  Forall (λ x, f x w = Some (g x, w)) l →
  mapM f l w = Some (g <$> l, w).
Proof.
  induction 1 as [|x l Hx _ IH]; [done|].
  by rewrite mapM_cons_run, Hx, IH.
Qed.

Lemma fmap_snd_imap {A B} (f : A → B) (h : nat → nat) (xs : list A) :
  (λ p : nat * A, f p.2) <$> imap (λ i x, (h i, x)) xs = f <$> xs.
Proof.
  revert h. induction xs as [|x xs IH]; intros h; [done|].
  simpl. f_equal. apply (IH (h ∘ S)).
Qed.

Lemma keys_identity w :
  trackingStrategy w = "identity" → keys w = Some (KRef <$> arr w).
Proof.
  intros H. unfold keys, snapshot_keys. munfold.
  rewrite (mapM_pure_run _ (λ p, KRef p.2)).
  - simpl. f_equal. apply (fmap_snd_imap KRef (λ i, i)).
  - apply Forall_forall. intros p _. by apply trackByFn_identity.
Qed.

Lemma keys_id w its :
  trackingStrategy w = "id" → items w = Some its →
  keys w = Some ((λ it, KNum (id it)) <$> its).
Proof.
  intros H Hits. unfold keys, snapshot_keys. munfold.
  apply items_Forall2 in Hits.
  set (d := {| id := 0; value := 0 |}).
  rewrite (mapM_pure_run _ (λ p, KNum (id (default d (heap w !! p.2))))).
  - simpl. f_equal.
    rewrite (fmap_snd_imap (λ l, KNum (id (default d (heap w !! l)))) (λ i, i)).
    clear H. induction Hits as [|l it ls its' Hl _ IH]; [done|].
    simpl. rewrite Hl. simpl. by f_equal.
  - apply Forall_forall. intros [i l] Hin. simpl.
    apply elem_of_lookup_imap_1 in Hin as (j & l' & ? & Hl). simplify_eq.
    destruct (Forall2_lookup_l _ _ _ _ _ Hits Hl) as (it & _ & Hit).
    rewrite Hit. simpl. by apply trackByFn_id.
Qed.

(** ** The mutation tick *)

Section Ticks.

Variable Array_sort : SortEngine.
Variable rnd : nat → Z.

(** The increment branch: ten (in general [length arr]) new objects are
    appended to the heap and the snapshot is replaced by their addresses. *)
Lemma tick_increment_run w its :
  changeStrategy w = "increment" → items w = Some its →
  mutation_tick Array_sort rnd w
  = Some (tt,
          log_event (EvPublish (seq (length (heap w)) (length (arr w))))
            (set_arr (seq (length (heap w)) (length (arr w)))
               (set_heap (heap w ++ (incremented <$> its)) w))).
Proof.
  intros Hc Hits. apply items_Forall2 in Hits.
  unfold mutation_tick. unfold mbind at 1, M_bind at 1, gets at 1.
  rewrite Hc, String.eqb_refl.
  unfold mbind at 1, M_bind at 1, gets at 1.
  unfold mbind at 1, M_bind at 1.
  by rewrite (mapM_increment _ its).
Qed.

(** The shuffle branch: the heap is left alone and the snapshot is replaced
    by what the engine's sort returns for the old one. *)
Lemma tick_shuffle_run w :
  changeStrategy w ≠ "increment" →
  mutation_tick Array_sort rnd w
  = Some (tt,
          let r := Array_sort (λ k, 2 ^ 52 - rnd (randomCalls w + k)%nat)
                              (arr w) in
          log_event (EvPublish r.1)
            (set_arr r.1 (set_randomCalls (randomCalls w + r.2) w))).
Proof.
  intros Hc. apply String.eqb_neq in Hc.
  unfold mutation_tick, sort_random. munfold. rewrite Hc. simpl.
  by destruct (Array_sort _ _).
Qed.

End Ticks.

(** ** Well-formed worlds *)

Lemma constructor_run search :
  App_constructor (boot search)
  = Some (tt,
          set_intervals [(CbMutationTick, 3000)]
            (set_effectScheduled true
               (set_changeStrategy
                  (or_default (URLSearchParams_get search "change") "increment")
                  (set_domStrategy
                     (or_default (URLSearchParams_get search "dom") "stateless")
                     (set_trackingStrategy
                        (or_default (URLSearchParams_get search "tracking") "index")
                        (set_arr (seq 0 10)
                           (set_heap (ten_items 0) (boot search)))))))).
Proof. reflexivity. Qed.

Lemma constructor_items search w :
  App_constructor (boot search) = Some (tt, w) →
  arr w = seq 0 10 ∧ heap w = ten_items 0 ∧ items w = Some (ten_items 0).
Proof. rewrite constructor_run. intros [= <-]. by repeat split. Qed.

(** ** The reconciler contract on particular key lists *)

Lemma filter_all {A} (P : A → Prop) `{∀ x, Decision (P x)} (l : list A) :
  Forall P l → filter P l = l.
Proof.
  induction 1 as [|x l Hx _ IH]; [done|].
  by rewrite filter_cons_True, IH.
Qed.

Lemma filter_none {A} (P : A → Prop) `{∀ x, Decision (P x)} (l : list A) :
  Forall (λ x, ¬ P x) l → filter P l = [].
Proof.
  induction 1 as [|x l Hx _ IH]; [done|].
  by rewrite filter_cons_False.
Qed.

(** Disjoint key lists: nothing is reused, everything old is destroyed and
    everything new is created. *)
Lemma reconcile_disjoint (prev cur : list Key) :
  (∀ k, k ∈ prev → k ∉ cur) →
  reused prev cur = [] ∧ destroyed prev cur = prev ∧ created prev cur = cur.
Proof.
  intros Hd. unfold reused, destroyed, created. repeat split.
  - apply filter_none, Forall_forall. intros k Hk Hp. by apply (Hd k).
  - apply filter_all, Forall_forall. intros k Hk. by apply Hd.
  - apply filter_all, Forall_forall. intros k Hk Hp. by apply (Hd k).
Qed.

(** Key lists with the same members: nothing is created or destroyed. *)
Lemma reconcile_same_members (prev cur : list Key) :
  (∀ k, k ∈ cur ↔ k ∈ prev) →
  reused prev cur = cur ∧ destroyed prev cur = [] ∧ created prev cur = [].
Proof.
  intros Hm. unfold reused, destroyed, created. repeat split.
  - apply filter_all, Forall_forall. intros k Hk. by apply Hm.
  - apply filter_none, Forall_forall. intros k Hk Hn. apply Hn. by apply Hm.
  - apply filter_none, Forall_forall. intros k Hk Hn. apply Hn. by apply Hm.
Qed.

Lemma constructor_allocated search w :
  App_constructor (boot search) = Some (tt, w) →
  allocated w ∧ length (arr w) = 10%nat.
Proof.
  intros (Ha & Hh & _)%constructor_items. unfold allocated.
  rewrite Ha, Hh. split; [|done].
  apply Forall_forall. intros l Hl%elem_of_seq.
  change (length (ten_items 0)) with 10%nat. lia.
Qed.

(** ** Numbers *)

(** Below [2^53] adding 1 in double arithmetic is adding 1; at [2^53] it is
    not. *)
Lemma js_add_safe (n : Z) : safe_integer n → js_add n 1 = n + 1.
Proof.
  unfold safe_integer, js_add, double_round.
  change (2 ^ 53) with 9007199254740992. intros Hn.
  destruct (Z.abs (n + 1) <? 9007199254740992) eqn:E; [done|].
  apply Z.ltb_ge in E.
  assert (n + 1 = 9007199254740992) as -> by lia. reflexivity.
Qed.

Example js_add_beyond_safe :
  js_add (2 ^ 53) 1 = 2 ^ 53 ∧ js_add (2 ^ 53 + 2) 1 = 2 ^ 53 + 4.
Proof. by vm_compute. Qed.

Lemma ten_items_safe (a : Z) :
  safe_integer a → safe_integer (a + 9) →
  Forall (λ it, safe_integer (id it) ∧ safe_integer (value it)) (ten_items a).
Proof.
  unfold safe_integer. change (2 ^ 53) with 9007199254740992.
  intros Ha Hb. apply Forall_forall. intros it Hit.
  apply list_elem_of_fmap in Hit as (i & -> & Hi).
  apply elem_of_seqZ in Hi. simpl. lia.
Qed.

Section Claims.

Variable Array_sort : SortEngine.
Variable rnd : nat → Z.

(** The world an increment tick leaves behind. *)
Lemma increment_tick_items w its :
  changeStrategy w = "increment" →
  items w = Some its →
  ∃ w', mutation_tick Array_sort rnd w = Some (tt, w') ∧
    items w' = Some (incremented <$> its) ∧
    trackingStrategy w' = trackingStrategy w.
Proof.
  intros Hc Hits. eexists. split; [by apply tick_increment_run|]. simpl.
  split; [|done].
  apply items_Forall2. simpl.
  replace (length (arr w)) with (length (incremented <$> its))
    by (rewrite length_fmap; by apply items_length).
  apply lookup_batch.
Qed.

(** C6: an increment tick publishes the old snapshot mapped, item by item
    and in order, to new objects [{id: id+1, value: value+1}]; the length is
    unchanged and every published reference is a newly allocated object.
    The ids and values are safe integers, as they are in every snapshot the
    program builds, so that the sums are the ones of JavaScript numbers; the
    new ids and values are at most [2^53] in magnitude, hence exact. *)
Theorem increment_tick_maps_items w its :
  changeStrategy w = "increment" →
  items w = Some its →
  Forall (λ it, safe_integer (id it) ∧ safe_integer (value it)) its →
  ∃ w', mutation_tick Array_sort rnd w = Some (tt, w') ∧
    items w' = Some ((λ it, {| id := id it + 1; value := value it + 1 |}) <$> its) ∧
    items w' = Some ((λ it, {| id := js_add (id it) 1;
                               value := js_add (value it) 1 |}) <$> its) ∧
    length (arr w') = length (arr w) ∧
    (∀ l, l ∈ arr w' → heap w !! l = None) ∧
    log w' = log w ++ [EvPublish (arr w')].
Proof.
  intros Hc Hits Hsafe. eexists. split; [by apply tick_increment_run|]. simpl.
  assert (Hnew : items
            (log_event (EvPublish (seq (length (heap w)) (length (arr w))))
               (set_arr (seq (length (heap w)) (length (arr w)))
                  (set_heap (heap w ++ (incremented <$> its)) w)))
          = Some (incremented <$> its)).
  { apply items_Forall2. simpl.
    replace (length (arr w)) with (length (incremented <$> its))
      by (rewrite length_fmap; by apply items_length).
    apply lookup_batch. }
  split; [exact Hnew|]. split; [|repeat split].
  - rewrite Hnew. f_equal. apply Forall_fmap_ext_1.
    eapply Forall_impl; [exact Hsafe|]. intros it [Hi Hv]. simpl.
    unfold incremented. by rewrite !js_add_safe.
  - by rewrite length_seq.
  - intros l Hl. apply elem_of_seq in Hl. apply lookup_ge_None. lia.
Qed.

(** C7: the key selector returns the position under [index], [item.id]
    under [id] and the item reference under [identity]; it leaves the world
    as it found it, and its result is fixed by the position, the item and
    the strategy alone. *)
Theorem trackByFn_selects (index : Z) (item : loc) (it : Item) w :
  heap w !! item = Some it →
  (trackingStrategy w = "index" →
     trackByFn index item w = Some (KNum index, w)) ∧
  (trackingStrategy w = "id" →
     trackByFn index item w = Some (KNum (id it), w)) ∧
  (trackingStrategy w = "identity" →
     trackByFn index item w = Some (KRef item, w)) ∧
  (∃ k, trackByFn index item w = Some (k, w) ∧
     ∀ w2, trackingStrategy w2 = trackingStrategy w →
           heap w2 !! item = Some it →
           trackByFn index item w2 = Some (k, w2)).
Proof.
  intros Hit. repeat split.
  - by apply trackByFn_index.
  - intros. by apply trackByFn_id.
  - by apply trackByFn_identity.
  - unfold trackByFn, deref. munfold.
    destruct (String.eqb (trackingStrategy w) "index") eqn:E1;
      [|destruct (String.eqb (trackingStrategy w) "id") eqn:E2;
        [|destruct (String.eqb (trackingStrategy w) "identity") eqn:E3]];
      simpl; rewrite ?Hit; eexists; (split; [reflexivity|]);
      intros w2 -> Hit2; rewrite ?E1, ?E2, ?E3; simpl; by rewrite ?Hit2.
Qed.

(** C10: under [identity] tracking an increment tick publishes references
    to newly allocated objects only, so the keys before and after the tick
    are disjoint: nothing is reused, every previous key is destroyed and
    every current key is created, ten of each for a ten-item snapshot.  The
    world after the tick satisfies the same conditions, so this holds at
    every tick. *)
Theorem identity_increment_replaces_all w :
  trackingStrategy w = "identity" →
  changeStrategy w = "increment" →
  allocated w →
  length (arr w) = 10%nat →
  ∃ w' prev cur,
    mutation_tick Array_sort rnd w = Some (tt, w') ∧
    keys w = Some prev ∧ keys w' = Some cur ∧
    (∀ k, k ∈ prev → k ∉ cur) ∧
    reused prev cur = [] ∧
    destroyed prev cur = prev ∧ length (destroyed prev cur) = 10%nat ∧
    created prev cur = cur ∧ length (created prev cur) = 10%nat ∧
    trackingStrategy w' = "identity" ∧ changeStrategy w' = "increment" ∧
    allocated w' ∧ length (arr w') = 10%nat.
Proof.
  intros Ht Hc Hall Hlen.
  destruct (allocated_items w Hall) as [its Hits].
  eexists _, (KRef <$> arr w), _.
  split; [by apply tick_increment_run|].
  split; [by apply keys_identity|].
  split; [by apply keys_identity|]. simpl.
  assert (Hd : ∀ k, k ∈ KRef <$> arr w →
                    k ∉ KRef <$> seq (length (heap w)) (length (arr w))).
  { intros k Hk Hk'.
    apply list_elem_of_fmap in Hk as (l & -> & Hl).
    apply list_elem_of_fmap in Hk' as (l' & [= <-] & Hl').
    apply elem_of_seq in Hl'.
    unfold allocated in Hall. rewrite Forall_forall in Hall.
    specialize (Hall l Hl). lia. }
  destruct (reconcile_disjoint _ _ Hd) as (-> & -> & ->).
  rewrite !length_fmap, length_seq.
  repeat split; try done.
  unfold allocated. simpl. apply Forall_forall. intros l Hl.
  apply elem_of_seq in Hl. rewrite length_app, length_fmap.
  apply items_length in Hits. lia.
Qed.

(** C1: under [id] tracking and the [increment] change strategy, one tick
    turns the snapshot [{id:0,value:0}..{id:9,value:9}] into
    [{id:1,value:1}..{id:10,value:10}]; the keys go from 0..9 to 1..10, so
    the reconciler contract reuses 1..9, destroys 0 and creates 10, one
    node only. *)
Theorem id_increment_first_tick w :
  trackingStrategy w = "id" →
  changeStrategy w = "increment" →
  items w = Some (ten_items 0) →
  ∃ w' prev cur,
    mutation_tick Array_sort rnd w = Some (tt, w') ∧
    items w' = Some (ten_items 1) ∧
    keys w = Some prev ∧ prev = KNum <$> seqZ 0 10 ∧
    keys w' = Some cur ∧ cur = KNum <$> seqZ 1 10 ∧
    reused prev cur = KNum <$> seqZ 1 9 ∧
    destroyed prev cur = [KNum 0] ∧
    created prev cur = [KNum 10] ∧
    length (created prev cur) = 1%nat.
Proof.
  intros Ht Hc Hits.
  destruct (increment_tick_items w _ Hc Hits)
    as (w' & Hrun & Hits' & Ht').
  rewrite Ht in Ht'.
  exists w', (KNum <$> seqZ 0 10), (KNum <$> seqZ 1 10).
  split; [done|]. split; [done|].
  split; [by rewrite (keys_id w _ Ht Hits)|]. split; [done|].
  split; [by rewrite (keys_id w' _ Ht' Hits')|]. split; [done|].
  by vm_compute.
Qed.

End Claims.

(** ** The insertion engine permutes its input *)

Lemma insert_by_perm answers calls x ys :
  (insert_by answers calls x ys).1 ≡ₚ x :: ys.
Proof.
  revert calls. induction ys as [|y ys IH]; intros calls; simpl; [done|].
  destruct (answers calls <? 0); [done|].
  specialize (IH (S calls)). destruct (insert_by answers (S calls) x ys) as [r c].
  simpl in *. rewrite IH. apply Permutation_swap.
Qed.

Lemma insertion_from_perm answers calls xs :
  (insertion_from answers calls xs).1 ≡ₚ xs.
Proof.
  induction xs as [|x xs IH]; simpl; [done|].
  destruct (insertion_from answers calls xs) as [sorted c]. simpl in *.
  by rewrite insert_by_perm, IH.
Qed.

Lemma insertion_engine_perm answers xs :
  (insertion_engine answers xs).1 ≡ₚ xs.
Proof. apply insertion_from_perm. Qed.

(** ** Items read through references *)

Lemma lookup_total_refs (h : list Item) (ls : list loc) :
  Forall (λ l : loc, (l < length h)%nat) ls →
  Forall2 (λ (l : loc) it, h !! l = Some it) ls
          ((λ l : loc, default {| id := 0; value := 0 |} (h !! l)) <$> ls).
Proof.
  induction 1 as [|l ls Hl _ IH]; [by constructor|].
  rewrite fmap_cons. constructor; [|done].
  by destruct (lookup_lt_is_Some_2 h l Hl) as [it ->].
Qed.

Lemma items_total w :
  allocated w →
  items w
  = Some ((λ l : loc, default {| id := 0; value := 0 |} (heap w !! l)) <$> arr w).
Proof. intros Hall. by apply items_Forall2, lookup_total_refs. Qed.

(** ** Ticks with an engine whose sort permutes *)

Section PermutingEngine.

Variable Array_sort : SortEngine.
Variable rnd : nat → Z.

(** Whatever the comparator answers, the sorted array holds the elements
    of the input, each as often as the input does. *)
Hypothesis Array_sort_perm :
  ∀ answers xs, (Array_sort answers xs).1 ≡ₚ xs.

Lemma tick_shuffle_spec w :
  changeStrategy w ≠ "increment" →
  ∃ w', mutation_tick Array_sort rnd w = Some (tt, w') ∧
    arr w' ≡ₚ arr w ∧ heap w' = heap w ∧
    trackingStrategy w' = trackingStrategy w ∧
    changeStrategy w' = changeStrategy w ∧
    log w' = log w ++ [EvPublish (arr w')].
Proof.
  intros Hc. eexists. split; [by apply tick_shuffle_run|]. simpl.
  repeat split. apply Array_sort_perm.
Qed.

(** One tick, whatever the change strategy: it returns, keeps the length
    and the strategies, and keeps the references allocated. *)
Lemma tick_invariant w :
  allocated w →
  ∃ w', mutation_tick Array_sort rnd w = Some (tt, w') ∧
    length (arr w') = length (arr w) ∧ allocated w' ∧
    trackingStrategy w' = trackingStrategy w ∧
    changeStrategy w' = changeStrategy w.
Proof.
  intros Hall.
  destruct (decide (changeStrategy w = "increment")) as [Hc|Hc].
  - destruct (allocated_items w Hall) as [its Hits].
    eexists. split; [by apply tick_increment_run|]. simpl.
    rewrite length_seq. repeat split.
    unfold allocated. simpl. apply Forall_forall. intros l Hl.
    apply elem_of_seq in Hl. rewrite length_app, length_fmap.
    apply items_length in Hits. lia.
  - destruct (tick_shuffle_spec w Hc) as (w' & Hrun & Hp & Hh & Ht & Hc').
    exists w'. repeat split; try done.
    + by rewrite Hp.
    + unfold allocated in *. by rewrite Hp, Hh.
    + by destruct Hc'.
Qed.

Lemma ticks_invariant n w :
  allocated w →
  ∃ w', ticks Array_sort rnd n w = Some (tt, w') ∧
    length (arr w') = length (arr w) ∧ allocated w'.
Proof.
  revert w. induction n as [|n IH]; intros w Hall.
  - by exists w.
  - destruct (tick_invariant w Hall) as (w1 & Hrun & Hlen & Hall1 & _).
    destruct (IH w1 Hall1) as (w' & Hrun' & Hlen' & Hall').
    exists w'. simpl. unfold mbind, M_bind. rewrite Hrun.
    repeat split; [done| congruence | done].
Qed.

(** A shuffle tick on the items: the snapshot refers to the same items, in
    another order. *)
Lemma tick_shuffle_items w its :
  changeStrategy w ≠ "increment" →
  items w = Some its →
  ∃ w' its', mutation_tick Array_sort rnd w = Some (tt, w') ∧
    items w' = Some its' ∧ its' ≡ₚ its.
Proof.
  intros Hc Hits.
  destruct (tick_shuffle_spec w Hc) as (w' & Hrun & Hp & Hh & _).
  pose proof (items_allocated w its Hits) as Hall.
  assert (Hall' : allocated w').
  { unfold allocated in *. by rewrite Hp, Hh. }
  exists w'. eexists. split; [done|]. split; [by apply items_total|].
  rewrite (items_total w Hall) in Hits. injection Hits as <-.
  by rewrite Hh, Hp.
Qed.

(** Ids and values stay equal, non-negative integers that grow by at most
    one per tick: they remain far below [2^53], where the arithmetic of
    JavaScript numbers is the arithmetic of [Z]. *)
Lemma ticks_items_bounded (n : nat) (b : Z) w its :
  items w = Some its →
  Forall (λ it, 0 ≤ id it ≤ b ∧ value it = id it) its →
  ∃ w' its', ticks Array_sort rnd n w = Some (tt, w') ∧
    items w' = Some its' ∧
    Forall (λ it, 0 ≤ id it ≤ b + Z.of_nat n ∧ value it = id it) its'.
Proof.
  revert b w its. induction n as [|n IH]; intros b w its Hits Hb.
  - exists w, its. split; [done|]. split; [done|].
    eapply Forall_impl; [exact Hb|]. intros it. simpl. lia.
  - assert (∃ w1 its1, mutation_tick Array_sort rnd w = Some (tt, w1) ∧
              items w1 = Some its1 ∧
              Forall (λ it, 0 ≤ id it ≤ b + 1 ∧ value it = id it) its1)
      as (w1 & its1 & Hrun & Hits1 & Hb1).
    { destruct (decide (changeStrategy w = "increment")) as [Hc|Hc].
      - destruct (increment_tick_items Array_sort rnd w its Hc Hits)
          as (w1 & Hrun & Hits1 & _).
        exists w1, (incremented <$> its). split; [done|]. split; [done|].
        apply Forall_fmap. eapply Forall_impl; [exact Hb|].
        intros it. unfold incremented. simpl. lia.
      - destruct (tick_shuffle_items w its Hc Hits)
          as (w1 & its1 & Hrun & Hits1 & Hp).
        exists w1, its1. split; [done|]. split; [done|]. rewrite Hp.
        eapply Forall_impl; [exact Hb|]. intros it. simpl. lia. }
    destruct (IH (b + 1) w1 its1 Hits1 Hb1) as (w' & its' & Hrun' & Hits' & Hb').
    exists w', its'. simpl. unfold mbind, M_bind. rewrite Hrun.
    split; [done|]. split; [done|].
    eapply Forall_impl; [exact Hb'|]. intros it. simpl. lia.
Qed.

Lemma reachable_ids_bounded (search : list (string * string)) (n : nat) :
  ∃ w0 w' its', App_constructor (boot search) = Some (tt, w0) ∧
    ticks Array_sort rnd n w0 = Some (tt, w') ∧
    items w' = Some its' ∧
    Forall (λ it, 0 ≤ id it ≤ 9 + Z.of_nat n ∧ value it = id it) its'.
Proof.
  destruct (App_constructor (boot search)) as [[[] w0]|] eqn:Hw0;
    [|by rewrite constructor_run in Hw0].
  destruct (constructor_items search w0 Hw0) as (_ & _ & Hits).
  destruct (ticks_items_bounded n 9 w0 (ten_items 0) Hits)
    as (w' & its' & Hrun & Hits' & Hb).
  { apply Forall_forall. intros it Hit. unfold ten_items in Hit.
    apply list_elem_of_fmap in Hit as (i & -> & Hi).
    apply elem_of_seqZ in Hi. simpl. lia. }
  by exists w0, w', its'.
Qed.

(** C9: a mutation tick, under either change strategy, publishes a
    snapshot as long as the one it replaces; from the ten-item snapshot of
    the constructor the length is ten after any number of ticks. *)
Theorem tick_preserves_length :
  (∀ w, allocated w →
     ∃ w', mutation_tick Array_sort rnd w = Some (tt, w') ∧
           length (arr w') = length (arr w)) ∧
  (∀ search n,
     ∃ w0 w', App_constructor (boot search) = Some (tt, w0) ∧
              length (arr w0) = 10%nat ∧
              ticks Array_sort rnd n w0 = Some (tt, w') ∧
              length (arr w') = 10%nat).
Proof.
  split.
  - intros w Hall.
    destruct (tick_invariant w Hall) as (w' & Hrun & Hlen & _).
    by exists w'.
  - intros search n.
    destruct (App_constructor (boot search)) as [[[] w0]|] eqn:Hw0;
      [|by rewrite constructor_run in Hw0].
    destruct (constructor_allocated search w0 Hw0) as [Hall Hten].
    destruct (ticks_invariant n w0 Hall) as (w' & Hrun & Hlen & _).
    exists w0, w'. repeat split; [done|done|congruence].
Qed.

(** Under [id] or [identity] tracking the key of an item does not depend
    on its position: the keys are the image of the references. *)
Lemma keys_by_ref w :
  trackingStrategy w = "id" ∨ trackingStrategy w = "identity" →
  allocated w →
  ∃ g : loc → Key,
    ∀ w2, heap w2 = heap w → trackingStrategy w2 = trackingStrategy w →
          allocated w2 → keys w2 = Some (g <$> arr w2).
Proof.
  intros [Ht|Ht] Hall.
  - exists (λ l, KNum (id (default {| id := 0; value := 0 |} (heap w !! l)))).
    intros w2 Hh Ht2 Hall2. rewrite Ht in Ht2.
    rewrite (keys_id w2 _ Ht2 (items_total w2 Hall2)), <- list_fmap_compose.
    by rewrite Hh.
  - exists KRef. intros w2 _ Ht2 _. rewrite Ht in Ht2.
    by apply keys_identity.
Qed.

Lemma shuffle_ticks_spec n w :
  changeStrategy w = "shuffle" →
  ∃ w', ticks Array_sort rnd n w = Some (tt, w') ∧
    arr w' ≡ₚ arr w ∧ heap w' = heap w ∧
    trackingStrategy w' = trackingStrategy w ∧
    changeStrategy w' = "shuffle".
Proof.
  revert w. induction n as [|n IH]; intros w Hc.
  - by exists w.
  - destruct (tick_shuffle_spec w) as (w1 & Hrun & Hp & Hh & Ht & Hc1 & _);
      [by rewrite Hc|].
    rewrite Hc in Hc1.
    destruct (IH w1 Hc1) as (w' & Hrun' & Hp' & Hh' & Ht' & Hc').
    exists w'. simpl. unfold mbind, M_bind. rewrite Hrun.
    repeat split; [done| by rewrite Hp' | congruence | congruence | done].
Qed.

(** C8: under the [shuffle] change strategy with [id] or [identity]
    tracking, the keys after any number of ticks are a rearrangement of the
    keys before (the same keys, each as often), so the reconciler contract
    creates no node and destroys none.  The heap is untouched and the world
    after the ticks satisfies the same conditions. *)
Theorem shuffle_keeps_keys (n : nat) w :
  changeStrategy w = "shuffle" →
  trackingStrategy w = "id" ∨ trackingStrategy w = "identity" →
  allocated w →
  ∃ w' prev cur,
    ticks Array_sort rnd n w = Some (tt, w') ∧
    keys w = Some prev ∧ keys w' = Some cur ∧
    cur ≡ₚ prev ∧
    created prev cur = [] ∧ destroyed prev cur = [] ∧
    heap w' = heap w ∧ allocated w' ∧
    changeStrategy w' = "shuffle" ∧
    trackingStrategy w' = trackingStrategy w.
Proof.
  intros Hc Ht Hall.
  destruct (shuffle_ticks_spec n w Hc) as (w' & Hrun & Hp & Hh & Ht' & Hc').
  destruct (keys_by_ref w Ht Hall) as (g & Hg).
  assert (Hall' : allocated w').
  { unfold allocated in *. by rewrite Hp, Hh. }
  exists w', (g <$> arr w), (g <$> arr w').
  split; [done|]. split; [by apply Hg|]. split; [by apply Hg|].
  assert (Hperm : g <$> arr w' ≡ₚ g <$> arr w) by (by rewrite Hp).
  split; [done|].
  destruct (reconcile_same_members (g <$> arr w) (g <$> arr w'))
    as (_ & Hd & Hcr).
  { intros k. by rewrite Hperm. }
  by rewrite Hcr, Hd.
Qed.

(** C2, as the code has it: a shuffle tick publishes what the engine's
    sort returns for the old snapshot under the comparator
    [0.5 - Math.random()], fed with the draws that follow the ones already
    consumed, and consumes one draw for each comparison.  The result is a
    rearrangement of the references of the old snapshot, so the same objects
    with the same ids and values and the same length; the heap is untouched,
    so no item is created and none is changed. *)
Theorem shuffle_tick_permutes w :
  changeStrategy w = "shuffle" →
  allocated w →
  ∃ w', mutation_tick Array_sort rnd w = Some (tt, w') ∧
    arr w' = (Array_sort (λ k, 2 ^ 52 - rnd (randomCalls w + k)%nat)
                         (arr w)).1 ∧
    randomCalls w'
    = Nat.add (randomCalls w)
              (Array_sort (λ k, 2 ^ 52 - rnd (randomCalls w + k)%nat)
                          (arr w)).2 ∧
    arr w' ≡ₚ arr w ∧
    length (arr w') = length (arr w) ∧
    heap w' = heap w ∧
    (∃ its its', items w = Some its ∧ items w' = Some its' ∧ its' ≡ₚ its) ∧
    log w' = log w ++ [EvPublish (arr w')].
Proof.
  intros Hc Hall.
  assert (Hne : changeStrategy w ≠ "increment") by (by rewrite Hc).
  destruct (tick_shuffle_spec w Hne) as (w' & Hrun & Hp & Hh & _ & _ & Hlog).
  destruct (allocated_items w Hall) as [its Hits].
  destruct (tick_shuffle_items w its Hne Hits) as (w2 & its' & Hrun2 & Hits' & Hpi).
  rewrite Hrun in Hrun2. injection Hrun2 as <-.
  pose proof (tick_shuffle_run Array_sort rnd w Hne) as Hr.
  rewrite Hrun in Hr. injection Hr as Hw'.
  exists w'. split; [done|].
  split; [by rewrite Hw'|]. split; [by rewrite Hw'|].
  repeat split; try done.
  - by rewrite Hp.
  - by exists its, its'.
Qed.

End PermutingEngine.

(** ** Counting tapes *)

Lemma length_bind_cons (ds : list Z) (ts : list (list Z)) :
  length (d ← ds; (λ t, d :: t) <$> ts) = (length ds * length ts)%nat.
Proof.
  induction ds as [|d ds IH]; [done|].
  rewrite bind_cons, length_app, length_fmap, IH. simpl. lia.
Qed.

Lemma length_draws bits : Z.of_nat (length (draws bits)) = 2 ^ Z.of_nat bits.
Proof.
  unfold draws. rewrite length_fmap, length_seqZ.
  rewrite Z2Nat.id; [done|]. apply Z.pow_nonneg. lia.
Qed.

(** There are [2^(bits * n)] tapes of [n] draws. *)
Lemma length_tapes bits n :
  Z.of_nat (length (tapes bits n)) = 2 ^ (Z.of_nat bits * Z.of_nat n).
Proof.
  induction n as [|n IH].
  - simpl. by rewrite Z.mul_0_r.
  - simpl tapes. rewrite length_bind_cons, Nat2Z.inj_mul, IH, length_draws.
    rewrite <- Z.pow_add_r by lia. f_equal. lia.
Qed.

(** ** The V8 sort permutes, and leaves alone an input it is told is sorted *)

Lemma run_extends_bound answers descending calls rest :
  ((run_extends answers descending calls rest).1 ≤ rest)%nat.
Proof.
  revert calls. induction rest as [|rest IH]; intros calls; simpl; [done|].
  case_bool_decide; simpl; [|lia].
  specialize (IH (S calls)).
  destruct (run_extends answers descending (S calls) rest). simpl in *. lia.
Qed.

Lemma count_and_make_run_perm answers xs :
  (count_and_make_run answers xs).1.1 ≡ₚ xs ∧
  ((count_and_make_run answers xs).1.2 ≤ length xs)%nat.
Proof.
  unfold count_and_make_run.
  destruct (length xs <? 2)%nat eqn:E; [done|].
  apply Nat.ltb_ge in E.
  pose proof (run_extends_bound answers (answers 0%nat <? 0) 1 (length xs - 2)).
  destruct (run_extends answers (answers 0%nat <? 0) 1 (length xs - 2)) as [r c].
  simpl in *. split; [|lia].
  destruct (answers 0%nat <? 0).
  - by rewrite reverse_Permutation, take_drop.
  - by rewrite take_drop.
Qed.

Lemma insertion_point_step answers calls lo hi fuel :
  insertion_point answers calls lo hi (S fuel)
  = if (lo <? hi)%nat then
      if answers calls <? 0 then
        insertion_point answers (S calls) lo (lo + (hi - lo) / 2)%nat fuel
      else insertion_point answers (S calls) (S (lo + (hi - lo) / 2)) hi fuel
    else (lo, calls).
Proof. reflexivity. Qed.

Lemma insertion_point_range answers calls lo hi fuel :
  (lo ≤ hi)%nat →
  (lo ≤ (insertion_point answers calls lo hi fuel).1 ≤ hi)%nat.
Proof.
  revert calls lo hi. induction fuel as [|fuel IH]; intros calls lo hi Hle.
  { simpl. lia. }
  rewrite insertion_point_step.
  destruct (lo <? hi)%nat eqn:E; [|simpl; lia].
  apply Nat.ltb_lt in E.
  assert (Hmid : ((hi - lo) / 2 < hi - lo)%nat)
    by (apply Nat.div_lt; lia).
  revert Hmid. generalize ((hi - lo) / 2)%nat. intros h Hmid.
  destruct (answers calls <? 0).
  - pose proof (IH (S calls) lo (lo + h)%nat ltac:(lia)). lia.
  - pose proof (IH (S calls) (S (lo + h)) hi ltac:(lia)). lia.
Qed.

Lemma insert_at_perm (xs : list loc) (start pos : nat) (pivot : loc) :
  xs !! start = Some pivot → (pos ≤ start)%nat →
  take pos xs ++ pivot :: take (start - pos) (drop pos xs) ++ drop (S start) xs
  ≡ₚ xs.
Proof.
  intros Hp Hle.
  assert (Hs : take start xs
               = take pos xs ++ take (start - pos) (drop pos xs)).
  { rewrite take_drop_commute.
    replace (pos + (start - pos))%nat with start by lia.
    rewrite <- (take_drop pos (take start xs)) at 1.
    f_equal. rewrite take_take. f_equal. lia. }
  transitivity ((take pos xs ++ take (start - pos) (drop pos xs))
                  ++ pivot :: drop (S start) xs).
  - rewrite <- app_assoc. apply Permutation_app_head.
    apply Permutation_middle.
  - rewrite <- Hs. by rewrite take_drop_middle.
Qed.

Lemma binary_insertion_perm answers calls start steps xs :
  (binary_insertion answers calls start steps xs).1 ≡ₚ xs.
Proof.
  revert calls start xs. induction steps as [|steps IH]; intros calls start xs;
    simpl; [done|].
  destruct (xs !! start) as [pivot|] eqn:Hp; [|done].
  pose proof (insertion_point_range answers calls 0 start start (Nat.le_0_l _))
    as Hr.
  destruct (insertion_point answers calls 0 start start) as [pos c].
  simpl in Hr. rewrite IH. apply insert_at_perm; [done|lia].
Qed.

(** Whatever the comparator answers, the V8 sort returns a rearrangement of
    its input. *)
Lemma v8_engine_perm answers xs : (v8_engine answers xs).1 ≡ₚ xs.
Proof.
  unfold v8_engine.
  pose proof (count_and_make_run_perm answers xs) as [Hp _].
  destruct (count_and_make_run answers xs) as [[ys run] c]. simpl in Hp.
  by rewrite binary_insertion_perm.
Qed.

Lemma run_extends_ascending answers calls rest :
  (∀ i, (calls ≤ i < calls + rest)%nat → 0 ≤ answers i) →
  run_extends answers false calls rest = (rest, (calls + rest)%nat).
Proof.
  revert calls. induction rest as [|rest IH]; intros calls H; simpl.
  - by rewrite Nat.add_0_r.
  - rewrite bool_decide_true.
    + rewrite IH; [by rewrite Nat.add_succ_r|]. intros i Hi. apply H. lia.
    + apply Z.ltb_ge. apply H. lia.
Qed.

(** When every answer of the comparator is non-negative, the whole array is
    one ascending run and the V8 sort returns it as it is, after one
    comparison per neighbouring pair. *)
Lemma v8_engine_sorted_input answers xs :
  (∀ i, (i < length xs - 1)%nat → 0 ≤ answers i) →
  (v8_engine answers xs).1 = xs.
Proof.
  intros H. unfold v8_engine, count_and_make_run.
  destruct (length xs <? 2)%nat eqn:E.
  - rewrite Nat.sub_diag. done.
  - apply Nat.ltb_ge in E.
    assert (H0 : (answers 0%nat <? 0) = false).
    { apply Z.ltb_ge, H. lia. }
    rewrite H0, run_extends_ascending by (intros i Hi; apply H; lia).
    replace (2 + (length xs - 2))%nat with (length xs) by lia.
    rewrite Nat.sub_diag, firstn_all, drop_all, app_nil_r. done.
Qed.

(** ** How often the shuffle returns the order it was given *)

Lemma low_prefix_answers (m : nat) (t : list Z) (i : nat) :
  low_prefix m t = true → (i < m)%nat → 0 ≤ 2 ^ 52 - tape_rnd t i.
Proof.
  revert t i. induction m as [|m IH]; intros t i Hl Hi; [lia|].
  unfold tape_rnd. destruct t as [|d t]; simpl in *.
  - rewrite ?lookup_nil. simpl. lia.
  - apply andb_true_iff in Hl as [Hd Ht]. apply Z.leb_le in Hd.
    destruct i as [|i]; simpl; [lia|].
    apply (IH t i Ht). lia.
Qed.

(** A tape whose draws are at most one half, one per neighbouring pair of
    the snapshot, makes the V8 sort publish the snapshot in the order it
    has. *)
Lemma shuffled_low_prefix (t : list Z) w :
  changeStrategy w ≠ "increment" →
  randomCalls w = 0%nat →
  low_prefix (length (arr w) - 1) t = true →
  shuffled v8_engine t w = Some (arr w).
Proof.
  intros Hc Hr Hl. unfold shuffled, exec.
  rewrite (tick_shuffle_run v8_engine (tape_rnd t) w Hc). simpl.
  f_equal. apply v8_engine_sorted_input. intros i Hi.
  rewrite Hr. simpl. by apply (low_prefix_answers (length (arr w) - 1)).
Qed.

Lemma length_filter_cons_fmap (P : list Z → Prop) `{∀ t, Decision (P t)}
    (Q : Z → Prop) `{∀ d, Decision (Q d)}
    (R : list Z → Prop) `{∀ t, Decision (R t)} (d : Z) (ts : list (list Z)) :
  (∀ t, P (d :: t) ↔ Q d ∧ R t) →
  length (filter P ((λ t, d :: t) <$> ts))
  = if decide (Q d) then length (filter R ts) else 0%nat.
Proof.
  intros HP. induction ts as [|t ts IH]; [by destruct (decide (Q d))|].
  rewrite fmap_cons. destruct (decide (Q d)) as [Hq|Hq].
  - destruct (decide (R t)) as [Hr|Hr].
    + rewrite !filter_cons_True by (done || by apply HP). simpl. by rewrite IH.
    + rewrite !filter_cons_False by (done || rewrite HP; tauto). done.
  - rewrite filter_cons_False by (rewrite HP; tauto). done.
Qed.

Lemma length_filter_bind_cons (P : list Z → Prop) `{∀ t, Decision (P t)}
    (Q : Z → Prop) `{∀ d, Decision (Q d)}
    (R : list Z → Prop) `{∀ t, Decision (R t)}
    (ds : list Z) (ts : list (list Z)) :
  (∀ d t, P (d :: t) ↔ Q d ∧ R t) →
  length (filter P (d ← ds; (λ t, d :: t) <$> ts))
  = (length (filter Q ds) * length (filter R ts))%nat.
Proof.
  intros HP. induction ds as [|d ds IH]; [done|].
  rewrite bind_cons, filter_app, length_app, IH.
  rewrite (length_filter_cons_fmap P Q R d ts (HP d)).
  destruct (decide (Q d)) as [Hq|Hq].
  - rewrite filter_cons_True by done. simpl. lia.
  - rewrite filter_cons_False by done. lia.
Qed.

Lemma length_filter_mono {A} (P Q : A → Prop) `{∀ x, Decision (P x)}
    `{∀ x, Decision (Q x)} (l : list A) :
  (∀ x, P x → Q x) → (length (filter P l) ≤ length (filter Q l))%nat.
Proof.
  intros HPQ. induction l as [|x l IH]; [done|].
  destruct (decide (P x)) as [Hp|Hp].
  - rewrite !filter_cons_True by auto. simpl. lia.
  - rewrite (filter_cons_False P) by done.
    destruct (decide (Q x)).
    + rewrite filter_cons_True by done. simpl. lia.
    + by rewrite filter_cons_False.
Qed.

(** At least half of the values of [Math.random()] are at most one half. *)
Lemma low_draws (bits : nat) :
  (1 ≤ bits ≤ 53)%nat →
  2 ^ Z.of_nat bits
  ≤ 2 * Z.of_nat (length (filter (λ d, (d <=? 2 ^ 52) = true) (draws bits))).
Proof.
  intros Hb. unfold draws.
  replace (2 ^ Z.of_nat bits)
    with (2 ^ (Z.of_nat bits - 1) + 2 ^ (Z.of_nat bits - 1)) at 2.
  2:{ replace (Z.of_nat bits) with (Z.succ (Z.of_nat bits - 1)) at 3 by lia.
      rewrite Z.pow_succ_r by lia. lia. }
  assert (Hpos : 0 ≤ 2 ^ (Z.of_nat bits - 1)) by (apply Z.pow_nonneg; lia).
  rewrite seqZ_app by lia. rewrite fmap_app, filter_app, length_app.
  rewrite (filter_all _ ((λ k, k * 2 ^ (53 - Z.of_nat bits))
                           <$> seqZ 0 (2 ^ (Z.of_nat bits - 1)))).
  - rewrite length_fmap, length_seqZ, Nat2Z.inj_add, Z2Nat.id by done.
    replace (2 ^ Z.of_nat bits) with (2 * 2 ^ (Z.of_nat bits - 1)); [lia|].
    replace (Z.of_nat bits) with (Z.succ (Z.of_nat bits - 1)) at 2 by lia.
    by rewrite Z.pow_succ_r by lia.
  - apply Forall_forall. intros d Hd.
    apply list_elem_of_fmap in Hd as (k & -> & Hk).
    apply elem_of_seqZ in Hk. apply Z.leb_le.
    replace (2 ^ 52)
      with (2 ^ (Z.of_nat bits - 1) * 2 ^ (53 - Z.of_nat bits)).
    + apply Z.mul_le_mono_nonneg_r; [apply Z.pow_nonneg|]; lia.
    + rewrite <- Z.pow_add_r by lia. f_equal. lia.
Qed.

(** Of the tapes of [n] draws, at least one in [2^m] starts with [m] draws
    that are at most one half. *)
Lemma low_prefix_tapes (bits m n : nat) :
  (1 ≤ bits ≤ 53)%nat → (m ≤ n)%nat →
  Z.of_nat (length (tapes bits n))
  ≤ 2 ^ Z.of_nat m
    * Z.of_nat (length (filter (λ t, low_prefix m t = true) (tapes bits n))).
Proof.
  intros Hb. revert n. induction m as [|m IH]; intros n Hmn.
  - rewrite filter_all; [simpl; lia|].
    apply Forall_forall. intros t _. by destruct t.
  - destruct n as [|n]; [lia|]. simpl tapes.
    rewrite (length_filter_bind_cons _ (λ d, (d <=? 2 ^ 52) = true)
               (λ t, low_prefix m t = true)).
    2:{ intros d t. simpl. apply andb_true_iff. }
    rewrite length_bind_cons, !Nat2Z.inj_mul, length_draws.
    rewrite Nat2Z.inj_succ, Z.pow_succ_r by lia.
    pose proof (low_draws bits Hb) as Hd.
    specialize (IH n ltac:(lia)).
    assert (0 ≤ Z.of_nat (length (tapes bits n))) by lia.
    assert (0 ≤ 2 ^ Z.of_nat m) by (apply Z.pow_nonneg; lia).
    nia.
Qed.

(** On a ten-item snapshot the V8 sort publishes the order it was given for
    at least one tape in 512, more than a thousand times the one in [10!] of
    an even split. *)
Lemma v8_shuffle_favours_given_order (bits n : nat) w :
  changeStrategy w ≠ "increment" →
  randomCalls w = 0%nat →
  length (arr w) = 10%nat →
  (1 ≤ bits ≤ 53)%nat → (9 ≤ n)%nat →
  over_share 1000 v8_engine bits n w (arr w).
Proof.
  intros Hc Hr Hlen Hb Hn. unfold over_share, tapes_giving. rewrite Hlen.
  pose proof (low_prefix_tapes bits 9 n Hb Hn) as Hlow.
  assert (Hmono :
    (length (filter (λ t, low_prefix 9 t = true) (tapes bits n))
     ≤ length (filter (λ t, shuffled v8_engine t w = Some (arr w))
                      (tapes bits n)))%nat).
  { apply length_filter_mono. intros t Ht.
    apply shuffled_low_prefix; [done|done|]. by rewrite Hlen. }
  change (factZ 10) with 3628800. change (2 ^ Z.of_nat 9) with 512 in Hlow.
  lia.
Qed.

(** The size of the bias, on three items with the insertion engine and a
    four-bit [Math.random()]: three draws cover every comparison, and of the
    4096 tapes the six orders receive between 441 and 1008 instead of an
    equal share. *)
Example insertion_shuffle_bias :
  length (tapes 4 3) = 4096%nat ∧
  (tapes_giving insertion_engine 4 3 three_items <$>
     [[0; 1; 2]; [0; 2; 1]; [1; 0; 2]; [1; 2; 0]; [2; 0; 1]; [2; 1; 0]]%nat)
  = [784; 1008; 441; 567; 567; 729]%nat.
Proof. by vm_compute. Qed.

(** The same count with the V8 sort: three draws cover the two comparisons
    of the run and the one or two of the binary search. *)
Example v8_shuffle_bias :
  (tapes_giving v8_engine 4 3 three_items <$>
     [[0; 1; 2]; [0; 2; 1]; [1; 0; 2]; [1; 2; 0]; [2; 0; 1]; [2; 1; 0]]%nat)
  ≠ replicate 6 (tapes_giving v8_engine 4 3 three_items [0; 1; 2]%nat).
Proof. by vm_compute. Qed.

(** C2, counterexample: on the ten-item snapshot the constructor builds, the
    shuffle is far from even.  With the V8 sort, for every resolution of
    [Math.random()] and every number of draws that covers the nine
    comparisons of the first run, the order the snapshot already has is
    published for at least one tape in 512, more than a thousand times the
    one in [10!] that an evenly distributed order would have. *)
Lemma shuffle_favours_given_order :
  ∃ w, App_constructor (boot [("change", "shuffle")]) = Some (tt, w) ∧
       changeStrategy w = "shuffle" ∧
       length (arr w) = 10%nat ∧
       ∀ bits n, (1 ≤ bits ≤ 53)%nat → (9 ≤ n)%nat →
         over_share 1000 v8_engine bits n w (arr w).
Proof.
  eexists. split; [apply constructor_run|]. split; [done|]. split; [done|].
  intros bits n Hb Hn. by apply v8_shuffle_favours_given_order.
Qed.

(** ** Reset and the next render *)

Lemma mapM_app_run {A B} (f : A → M B) (l1 l2 : list A) w :
  mapM f (l1 ++ l2) w
  = match mapM f l1 w with
    | Some (k1, w1) =>
        match mapM f l2 w1 with
        | Some (k2, w2) => Some (k1 ++ k2, w2)
        | None => None
        end
    | None => None
    end.
Proof.
  revert w. induction l1 as [|x l1 IH]; intros w.
  - rewrite app_nil_l, mapM_nil_run. by destruct (mapM f l2 w) as [[]|].
  - rewrite <- app_comm_cons, !mapM_cons_run.
    destruct (f x w) as [[y w1]|]; [|done]. rewrite IH.
    destruct (mapM f l1 w1) as [[k1 w2]|]; [|done].
    by destruct (mapM f l2 w2) as [[k2 w3]|].
Qed.

Lemma run_callback_run cb w :
  run_callback cb w
  = Some (tt,
          log_event (EvPublish (seq (length (heap w)) 10))
            (set_arr (seq (length (heap w)) 10)
               (set_heap (heap w ++ ten_items 0) w))).
Proof.
  destruct cb. unfold run_callback. unfold mbind, M_bind.
  by rewrite fresh_snapshot_run.
Qed.

(** Running queued callbacks always returns; it publishes snapshots and
    touches neither the registry nor the queue. *)
Lemma run_callbacks_spec (cs : list Callback) w :
  ∃ w' us mid,
    mapM run_callback cs w = Some (us, w') ∧
    elementRegistry w' = elementRegistry w ∧
    pendingAfterNextRender w' = pendingAfterNextRender w ∧
    log w' = log w ++ mid ∧
    Forall (λ e, e ≠ EvRegistryClear) mid.
Proof.
  revert w. induction cs as [|cb cs IH]; intros w.
  - exists w, [], []. by rewrite app_nil_r.
  - rewrite mapM_cons_run, run_callback_run.
    edestruct IH as (w' & us & mid & -> & Hr & Hp & Hl & Hm).
    eexists w', _, _. split; [done|]. simpl in *.
    split; [done|]. split; [done|]. rewrite Hl, <- app_assoc.
    split; [done|]. by constructor.
Qed.

(** C3, as the code has it: [reset()] publishes the empty snapshot, queues
    the publication of ten new items for after the next render, and clears
    the registry before it returns, so before that render; the ten items
    [id = value = index] are published once the render has completed.  The
    registry is therefore cleared before the new snapshot is published, not
    after. *)
Theorem reset_then_render w :
  ∃ w1,
    reset w = Some (tt, w1) ∧
    arr w1 = [] ∧ elementRegistry w1 = ∅ ∧ heap w1 = heap w ∧
    pendingAfterNextRender w1 = pendingAfterNextRender w ++ [CbResetPublish] ∧
    log w1 = log w ++ [EvPublish []; EvRegistryClear] ∧
    ∃ w2 mid,
      render w1 = Some (tt, w2) ∧
      items w2 = Some (ten_items 0) ∧
      elementRegistry w2 = ∅ ∧
      log w2 = log w1 ++ EvPaint :: mid ++ [EvPublish (arr w2)] ∧
      Forall (λ e, e ≠ EvRegistryClear) mid.
Proof.
  eexists. split; [reflexivity|]. simpl.
  split; [done|]. split; [done|]. split; [done|]. split; [done|].
  split; [by rewrite <- app_assoc|].
  unfold render. munfold. simpl.
  rewrite mapM_app_run.
  edestruct (run_callbacks_spec (pendingAfterNextRender w))
    as (w' & us & mid & -> & Hr & _ & Hl & Hm).
  rewrite mapM_cons_run, run_callback_run, mapM_nil_run.
  eexists _, mid. split; [reflexivity|]. simpl in *.
  split; [|split; [done|split; [|done]]].
  - apply items_Forall2. simpl. apply (lookup_batch (heap w') (ten_items 0)).
  - rewrite Hl, <- !app_assoc. simpl. done.
Qed.

(** In a log of that shape the registry is cleared before any non-empty
    snapshot is published. *)
Lemma clear_precedes_publish (xs : list loc) :
  ¬ clear_follows_publish [EvPublish []; EvRegistryClear; EvPaint; EvPublish xs].
Proof.
  intros (i & j & ys & Hi & Hne & Hj & Hlt).
  destruct j as [|[|[|[|j]]]]; simpl in Hj; try discriminate Hj.
  destruct i as [|[|i]]; simpl in Hi.
  - injection Hi as <-. done.
  - discriminate Hi.
  - lia.
Qed.

(** C3, counterexample: after the constructor, [reset()] followed by one
    render logs the clearing of the registry before the publication of the
    new snapshot; no non-empty snapshot is published before the clearing. *)
Lemma reset_clears_before_publish :
  ∃ w0 w1 w2,
    App_constructor (boot []) = Some (tt, w0) ∧
    reset w0 = Some (tt, w1) ∧
    render w1 = Some (tt, w2) ∧
    log w2 = [EvPublish []; EvRegistryClear; EvPaint;
              EvPublish (seq 10 10)] ∧
    ¬ clear_follows_publish (log w2).
Proof.
  eexists _, _, _.
  split; [vm_compute; reflexivity|].
  split; [vm_compute; reflexivity|].
  split; [vm_compute; reflexivity|].
  split; [vm_compute; reflexivity|].
  apply clear_precedes_publish.
Qed.

(** ** Strategy selections at startup *)

(** C4, as the code has it: for each of the three selections, a parameter
    that is missing or empty gives the default ([index], [stateless],
    [increment]); any other value, known or not, is taken as it is. *)
Theorem startup_selection (search : list (string * string)) :
  ∃ w, App_constructor (boot search) = Some (tt, w) ∧
    (∀ name sel dflt,
       (name, sel, dflt) ∈ [("tracking", trackingStrategy w, "index");
                            ("dom", domStrategy w, "stateless");
                            ("change", changeStrategy w, "increment")] →
       (URLSearchParams_get search name = None → sel = dflt) ∧
       (URLSearchParams_get search name = Some "" → sel = dflt) ∧
       (∀ s, URLSearchParams_get search name = Some s → s ≠ "" → sel = s)).
Proof.
  eexists. split; [apply constructor_run|].
  intros name sel dflt Hin. simpl in Hin.
  assert (Hsel : sel = or_default (URLSearchParams_get search name) dflt).
  { repeat (apply elem_of_cons in Hin as [Hin|Hin]; [by simplify_eq|]).
    by apply elem_of_nil in Hin. }
  rewrite Hsel. unfold or_default. repeat split.
  - by intros ->.
  - by intros ->.
  - intros s -> Hs. apply String.eqb_neq in Hs. by rewrite Hs.
Qed.

(** C4, counterexample: the unknown value [foo] for [tracking] is kept; the
    selection does not fall back to [index]. *)
Lemma unknown_tracking_is_kept :
  ∃ w, App_constructor (boot [("tracking", "foo")]) = Some (tt, w) ∧
       ("foo" ∉ known_tracking) ∧
       trackingStrategy w = "foo" ∧
       trackingStrategy w ≠ "index".
Proof.
  eexists. split; [vm_compute; reflexivity|].
  split; [|split; [reflexivity|discriminate]].
  unfold known_tracking. intros H.
  repeat (apply elem_of_cons in H as [H|H]; [discriminate|]).
  by apply elem_of_nil in H.
Qed.

(** ** Teardown and the interval timer *)

(** C5, as the code has it: tearing the view down leaves every interval
    timer in place.  The timer the constructor started is still live after
    teardown, and when its period elapses the mutation tick runs and
    publishes a snapshot. *)
Theorem teardown_keeps_timer (search : list (string * string)) :
  (∀ w, ∃ w', destroy w = Some (tt, w') ∧ intervals w' = intervals w) ∧
  ∃ w0 w1,
    App_constructor (boot search) = Some (tt, w0) ∧
    destroy w0 = Some (tt, w1) ∧
    intervals w1 = [(CbMutationTick, 3000)] ∧
    ∀ sort rnd, ∃ w2,
      interval_elapsed sort rnd w1 = Some (tt, w2) ∧
      log w2 = log w1 ++ [EvPublish (arr w2)].
Proof.
  split; [intros w; by eexists|].
  destruct (App_constructor (boot search)) as [[[] w0]|] eqn:Hw0;
    [|by rewrite constructor_run in Hw0].
  destruct (constructor_allocated search w0 Hw0) as [Hall _].
  assert (Hint : intervals w0 = [(CbMutationTick, 3000)]).
  { rewrite constructor_run in Hw0. by simplify_eq. }
  eexists w0, _. split; [done|]. split; [reflexivity|]. simpl.
  split; [done|]. intros sort rnd.
  unfold interval_elapsed. unfold mbind at 1, M_bind at 1, gets at 1.
  simpl intervals. rewrite Hint.
  unfold mbind, M_bind. rewrite mapM_cons_run.
  unfold run_timer. simpl fst.
  set (w1 := set_pendingAfterNextRender [] (set_effectScheduled false w0)).
  change (match (CbMutationTick, 3000).1 with
          | CbMutationTick => mutation_tick sort rnd
          end w1) with (mutation_tick sort rnd w1).
  destruct (decide (changeStrategy w1 = "increment")) as [Hc|Hc].
  - destruct (allocated_items w1) as [its Hits]; [done|].
    rewrite (tick_increment_run sort rnd w1 its Hc Hits), mapM_nil_run.
    by eexists.
  - rewrite (tick_shuffle_run sort rnd w1 Hc), mapM_nil_run. by eexists.
Qed.

(** C5, counterexample: after the constructor and a teardown the interval
    timer is still registered, and when it fires the snapshot is replaced:
    a mutation tick has occurred after teardown. *)
Lemma tick_after_teardown :
  ∃ w0 w1 w2,
    App_constructor (boot []) = Some (tt, w0) ∧
    destroy w0 = Some (tt, w1) ∧
    intervals w1 = [(CbMutationTick, 3000)] ∧
    interval_elapsed insertion_engine rnd_zero w1 = Some (tt, w2) ∧
    arr w1 = seq 0 10 ∧
    arr w2 = seq 10 10 ∧
    items w2 = Some (ten_items 1) ∧
    log w2 = log w1 ++ [EvPublish (seq 10 10)].
Proof.
  eexists _, _, _.
  split; [vm_compute; reflexivity|].
  split; [vm_compute; reflexivity|].
  split; [vm_compute; reflexivity|].
  split; [vm_compute; reflexivity|].
  by vm_compute.
Qed.

(** ** The component at work *)

(** The first change detection after the constructor runs the effect:
    [reset()] empties the list and clears the registry, the selections are
    written to the location, and after the render ten new items are
    published. *)
Example first_change_detection :
  ∃ w, change_detection (started []) = Some (tt, w) ∧
    arr w = seq 10 10 ∧
    items w = Some (ten_items 0) ∧
    elementRegistry w = ∅ ∧
    queryParams w
    = [("tracking", "index"); ("dom", "stateless"); ("change", "increment")] ∧
    effectScheduled w = false ∧
    log w = [EvPublish []; EvRegistryClear; EvPaint; EvPublish (seq 10 10)].
Proof. eexists. split; [vm_compute; reflexivity|]. by vm_compute. Qed.

(** Choosing another tracking strategy schedules the effect, and with it a
    reset; choosing the current one does not.  The location ends with the
    three selections; a parameter the page was loaded with, like [x] here,
    is not in the router's URL and is gone after the first navigation. *)
Example tracking_toggle :
  effectScheduled
    <$> exec (change_detection;; onTrackingStrategyChange "id") (started [])
  = Some true ∧
  effectScheduled
    <$> exec (change_detection;; onTrackingStrategyChange "index") (started [])
  = Some false ∧
  queryParams
    <$> exec (change_detection;; onChangeStrategyChange "shuffle";;
              change_detection)
             (started [("x", "1"); ("dom", "stateful")])
  = Some [("tracking", "index"); ("dom", "stateful"); ("change", "shuffle")].
Proof. by vm_compute. Qed.

(** Under [index] tracking the keys are the positions. *)
Example keys_under_index :
  keys (started []) = Some (KNum <$> seqZ 0 10) ∧
  (keys <$> exec (mutation_tick insertion_engine rnd_zero) (started []))
  = Some (Some (KNum <$> seqZ 0 10)).
Proof. by vm_compute. Qed.

(** An unknown tracking strategy matches no [case]: every key is
    [undefined]. *)
Example keys_under_unknown_strategy :
  keys (started [("tracking", "foo")]) = Some (replicate 10 KUndefined).
Proof. by vm_compute. Qed.

(** ** The theorems at concrete worlds *)

Lemma id_increment_first_tick_witness :
  trackingStrategy (started [("tracking", "id")]) = "id" ∧
  changeStrategy (started [("tracking", "id")]) = "increment" ∧
  items (started [("tracking", "id")]) = Some (ten_items 0) ∧
  ∃ w' prev cur,
    mutation_tick insertion_engine rnd_zero (started [("tracking", "id")])
    = Some (tt, w') ∧
    items w' = Some (ten_items 1) ∧
    keys (started [("tracking", "id")]) = Some prev ∧
    prev = KNum <$> seqZ 0 10 ∧
    keys w' = Some cur ∧ cur = KNum <$> seqZ 1 10 ∧
    reused prev cur = KNum <$> seqZ 1 9 ∧
    destroyed prev cur = [KNum 0] ∧
    created prev cur = [KNum 10] ∧
    length (created prev cur) = 1%nat.
Proof.
  split; [reflexivity|]. split; [reflexivity|]. split; [reflexivity|].
  apply (id_increment_first_tick insertion_engine rnd_zero
           (started [("tracking", "id")])); reflexivity.
Defined.

Lemma increment_tick_maps_items_witness :
  changeStrategy (started []) = "increment" ∧
  items (started []) = Some (ten_items 0) ∧
  Forall (λ it, safe_integer (id it) ∧ safe_integer (value it)) (ten_items 0) ∧
  ∃ w', mutation_tick insertion_engine rnd_zero (started []) = Some (tt, w') ∧
    items w'
    = Some ((λ it, {| id := id it + 1; value := value it + 1 |})
              <$> ten_items 0) ∧
    items w'
    = Some ((λ it, {| id := js_add (id it) 1; value := js_add (value it) 1 |})
              <$> ten_items 0) ∧
    length (arr w') = length (arr (started [])) ∧
    (∀ l, l ∈ arr w' → heap (started []) !! l = None) ∧
    log w' = log (started []) ++ [EvPublish (arr w')].
Proof.
  assert (Hs : Forall (λ it, safe_integer (id it) ∧ safe_integer (value it))
                      (ten_items 0)).
  { apply ten_items_safe; unfold safe_integer; by vm_compute. }
  split; [reflexivity|]. split; [reflexivity|]. split; [exact Hs|].
  apply (increment_tick_maps_items insertion_engine rnd_zero (started [])
           (ten_items 0)); [reflexivity | reflexivity | exact Hs].
Defined.

Lemma trackByFn_selects_witness :
  heap (started []) !! 3%nat = Some {| id := 3; value := 3 |} ∧
  (trackingStrategy (started []) = "index" →
     trackByFn 7 3%nat (started []) = Some (KNum 7, started [])) ∧
  (trackingStrategy (started []) = "id" →
     trackByFn 7 3%nat (started []) = Some (KNum 3, started [])) ∧
  (trackingStrategy (started []) = "identity" →
     trackByFn 7 3%nat (started []) = Some (KRef 3, started [])) ∧
  (∃ k, trackByFn 7 3%nat (started []) = Some (k, started []) ∧
     ∀ w2, trackingStrategy w2 = trackingStrategy (started []) →
           heap w2 !! 3%nat = Some {| id := 3; value := 3 |} →
           trackByFn 7 3%nat w2 = Some (k, w2)).
Proof.
  split; [reflexivity|].
  apply (trackByFn_selects 7 3%nat {| id := 3; value := 3 |} (started [])).
  reflexivity.
Defined.

Lemma identity_increment_replaces_all_witness :
  trackingStrategy (started [("tracking", "identity")]) = "identity" ∧
  changeStrategy (started [("tracking", "identity")]) = "increment" ∧
  allocated (started [("tracking", "identity")]) ∧
  length (arr (started [("tracking", "identity")])) = 10%nat ∧
  ∃ w' prev cur,
    mutation_tick insertion_engine rnd_zero
      (started [("tracking", "identity")]) = Some (tt, w') ∧
    keys (started [("tracking", "identity")]) = Some prev ∧
    keys w' = Some cur ∧
    (∀ k, k ∈ prev → k ∉ cur) ∧
    reused prev cur = [] ∧
    destroyed prev cur = prev ∧ length (destroyed prev cur) = 10%nat ∧
    created prev cur = cur ∧ length (created prev cur) = 10%nat ∧
    trackingStrategy w' = "identity" ∧ changeStrategy w' = "increment" ∧
    allocated w' ∧ length (arr w') = 10%nat.
Proof.
  assert (Hall : allocated (started [("tracking", "identity")])).
  { unfold allocated. vm_compute. repeat constructor. }
  split; [reflexivity|]. split; [reflexivity|]. split; [exact Hall|].
  split; [reflexivity|].
  apply (identity_increment_replaces_all insertion_engine rnd_zero
           (started [("tracking", "identity")]));
    [reflexivity | reflexivity | exact Hall | reflexivity].
Defined.

Lemma tick_preserves_length_witness :
  (∀ answers xs, (insertion_engine answers xs).1 ≡ₚ xs) ∧
  (∀ w, allocated w →
     ∃ w', mutation_tick insertion_engine rnd_zero w = Some (tt, w') ∧
           length (arr w') = length (arr w)) ∧
  (∀ search n,
     ∃ w0 w', App_constructor (boot search) = Some (tt, w0) ∧
              length (arr w0) = 10%nat ∧
              ticks insertion_engine rnd_zero n w0 = Some (tt, w') ∧
              length (arr w') = 10%nat).
Proof.
  split; [exact insertion_engine_perm|].
  exact (tick_preserves_length insertion_engine rnd_zero insertion_engine_perm).
Defined.

Lemma shuffle_keeps_keys_witness :
  (∀ answers xs, (insertion_engine answers xs).1 ≡ₚ xs) ∧
  changeStrategy (started [("tracking", "id"); ("change", "shuffle")])
  = "shuffle" ∧
  (trackingStrategy (started [("tracking", "id"); ("change", "shuffle")])
   = "id" ∨
   trackingStrategy (started [("tracking", "id"); ("change", "shuffle")])
   = "identity") ∧
  allocated (started [("tracking", "id"); ("change", "shuffle")]) ∧
  ∃ w' prev cur,
    ticks insertion_engine rnd_zero 3
      (started [("tracking", "id"); ("change", "shuffle")]) = Some (tt, w') ∧
    keys (started [("tracking", "id"); ("change", "shuffle")]) = Some prev ∧
    keys w' = Some cur ∧
    cur ≡ₚ prev ∧
    created prev cur = [] ∧ destroyed prev cur = [] ∧
    heap w' = heap (started [("tracking", "id"); ("change", "shuffle")]) ∧
    allocated w' ∧
    changeStrategy w' = "shuffle" ∧
    trackingStrategy w'
    = trackingStrategy (started [("tracking", "id"); ("change", "shuffle")]).
Proof.
  assert (Hall :
    allocated (started [("tracking", "id"); ("change", "shuffle")])).
  { unfold allocated. vm_compute. repeat constructor. }
  split; [exact insertion_engine_perm|]. split; [reflexivity|].
  split; [left; reflexivity|]. split; [exact Hall|].
  apply (shuffle_keeps_keys insertion_engine rnd_zero insertion_engine_perm 3
           (started [("tracking", "id"); ("change", "shuffle")]));
    [reflexivity | left; reflexivity | exact Hall].
Defined.

Lemma shuffle_tick_permutes_witness :
  (∀ answers xs, (v8_engine answers xs).1 ≡ₚ xs) ∧
  changeStrategy (started [("change", "shuffle")]) = "shuffle" ∧
  allocated (started [("change", "shuffle")]) ∧
  ∃ w',
    mutation_tick v8_engine rnd_zero (started [("change", "shuffle")])
    = Some (tt, w') ∧
    arr w'
    = (v8_engine
         (λ k, 2 ^ 52
               - rnd_zero (randomCalls (started [("change", "shuffle")]) + k)%nat)
         (arr (started [("change", "shuffle")]))).1 ∧
    randomCalls w'
    = Nat.add (randomCalls (started [("change", "shuffle")]))
              (v8_engine
                 (λ k, 2 ^ 52
                       - rnd_zero
                           (randomCalls (started [("change", "shuffle")]) + k)%nat)
                 (arr (started [("change", "shuffle")]))).2 ∧
    arr w' ≡ₚ arr (started [("change", "shuffle")]) ∧
    length (arr w') = length (arr (started [("change", "shuffle")])) ∧
    heap w' = heap (started [("change", "shuffle")]) ∧
    (∃ its its', items (started [("change", "shuffle")]) = Some its ∧
                 items w' = Some its' ∧ its' ≡ₚ its) ∧
    log w' = log (started [("change", "shuffle")]) ++ [EvPublish (arr w')].
Proof.
  assert (Hall : allocated (started [("change", "shuffle")])).
  { unfold allocated. vm_compute. repeat constructor. }
  split; [exact v8_engine_perm|]. split; [reflexivity|].
  split; [exact Hall|].
  apply (shuffle_tick_permutes v8_engine rnd_zero v8_engine_perm
           (started [("change", "shuffle")])); [reflexivity | exact Hall].
Defined.

(** * Further properties *)

(** ** The location mirrors the selections *)

Lemma get_merge_same k v q :
  URLSearchParams_get (merge_param k v q) k = Some v.
Proof.
  induction q as [|[k' v'] q IH]; simpl.
  - by rewrite String.eqb_refl.
  - destruct (String.eqb k' k) eqn:E; simpl.
    + by rewrite String.eqb_refl.
    + by rewrite E.
Qed.

Lemma get_merge_other k k' v q :
  k ≠ k' →
  URLSearchParams_get (merge_param k v q) k' = URLSearchParams_get q k'.
Proof.
  intros Hne. apply String.eqb_neq in Hne.
  induction q as [|[k0 v0] q IH]; simpl.
  - by rewrite Hne.
  - destruct (String.eqb k0 k) eqn:E; simpl.
    + apply String.eqb_eq in E as ->. by rewrite Hne.
    + by rewrite IH.
Qed.

Lemma router_navigate_run w :
  router_navigate w
  = Some (tt,
          set_queryParams
            (merge_param "change" (changeStrategy w)
               (merge_param "dom" (domStrategy w)
                  (merge_param "tracking" (trackingStrategy w)
                     (routerParams w))))
            (set_routerParams
               (merge_param "change" (changeStrategy w)
                  (merge_param "dom" (domStrategy w)
                     (merge_param "tracking" (trackingStrategy w)
                        (routerParams w)))) w)).
Proof. reflexivity. Qed.

Lemma merge_param_nil_three t d c :
  merge_param "change" c (merge_param "dom" d (merge_param "tracking" t []))
  = [("tracking", t); ("dom", d); ("change", c)].
Proof. reflexivity. Qed.

(** Reloading the page from the location written by [router.navigate] gives
    back the three selections, as long as none of them is the empty
    string. *)
Theorem reload_restores_selections w w' w2 :
  trackingStrategy w ≠ "" →
  domStrategy w ≠ "" →
  changeStrategy w ≠ "" →
  router_navigate w = Some (tt, w') →
  App_constructor (boot (queryParams w')) = Some (tt, w2) →
  selections w2 = selections w.
Proof.
  intros Ht Hd Hc Hnav Hcons.
  rewrite router_navigate_run in Hnav. injection Hnav as <-.
  rewrite constructor_run in Hcons. injection Hcons as <-.
  unfold selections. simpl.
  rewrite (get_merge_same "change").
  rewrite (get_merge_other "change" "dom"), (get_merge_same "dom") by done.
  rewrite (get_merge_other "change" "tracking") by done.
  rewrite (get_merge_other "dom" "tracking"), (get_merge_same "tracking")
    by done.
  unfold or_default.
  apply String.eqb_neq in Ht, Hd, Hc. by rewrite Ht, Hd, Hc.
Qed.

(** An empty selection is not restored: the reload falls back to the
    default. *)
Lemma reload_loses_empty_selection w w' w2 :
  trackingStrategy w = "" →
  router_navigate w = Some (tt, w') →
  App_constructor (boot (queryParams w')) = Some (tt, w2) →
  trackingStrategy w2 = "index".
Proof.
  intros Ht Hnav Hcons.
  rewrite router_navigate_run in Hnav. injection Hnav as <-.
  rewrite constructor_run in Hcons. injection Hcons as <-. simpl.
  rewrite (get_merge_other "change" "tracking") by done.
  rewrite (get_merge_other "dom" "tracking"), get_merge_same by done.
  by rewrite Ht.
Qed.

(** ** The key selector and the displayed expression *)

Lemma fmap_fst_imap {A B} (f : nat → B) (h : nat → nat) (xs : list A) :
  (λ p : nat * A, f p.1) <$> imap (λ i x, (h i, x)) xs
  = (λ i, f (h i)) <$> seq 0 (length xs).
Proof.
  revert h. induction xs as [|x xs IH]; intros h; [done|].
  simpl. f_equal. etransitivity; [exact (IH (h ∘ S))|].
  by rewrite <- fmap_S_seq, <- list_fmap_compose.
Qed.

(** Under [index] tracking the keys are the positions, whatever the items. *)
Lemma keys_index w :
  trackingStrategy w = "index" →
  keys w = Some ((λ i, KNum (Z.of_nat i)) <$> seq 0 (length (arr w))).
Proof.
  intros H. unfold keys, snapshot_keys. munfold.
  rewrite (mapM_pure_run _ (λ p, KNum (Z.of_nat p.1))).
  - simpl. f_equal.
    apply (fmap_fst_imap (λ i, KNum (Z.of_nat i)) (λ i, i)).
  - apply Forall_forall. intros p _. by apply trackByFn_index.
Qed.

Lemma trackByFn_unknown index item w :
  trackingStrategy w ∉ known_tracking →
  trackByFn index item w = Some (KUndefined, w).
Proof.
  intros H. unfold trackByFn. munfold.
  destruct (String.eqb (trackingStrategy w) "index") eqn:E1.
  { apply String.eqb_eq in E1. destruct H. rewrite E1.
    unfold known_tracking. by repeat constructor. }
  destruct (String.eqb (trackingStrategy w) "id") eqn:E2.
  { apply String.eqb_eq in E2. destruct H. rewrite E2.
    unfold known_tracking. by repeat constructor. }
  destruct (String.eqb (trackingStrategy w) "identity") eqn:E3; [|done].
  apply String.eqb_eq in E3. destruct H. rewrite E3.
  unfold known_tracking. by repeat constructor.
Qed.

(** With a tracking strategy outside the three names, as a hand-written
    query parameter can produce, every item of every snapshot gets the same
    key [undefined]: from two items on, the keys collide. *)
Theorem unknown_tracking_keys_collide w :
  trackingStrategy w ∉ known_tracking →
  keys w = Some (replicate (length (arr w)) KUndefined) ∧
  ((2 ≤ length (arr w))%nat → ∃ ks, keys w = Some ks ∧ ¬ NoDup ks).
Proof.
  intros H.
  assert (Hk : keys w = Some (replicate (length (arr w)) KUndefined)).
  { unfold keys, snapshot_keys. munfold.
    rewrite (mapM_pure_run _ (λ _, KUndefined)).
    - simpl. f_equal. rewrite <- (length_imap pair (arr w)).
      generalize (imap pair (arr w)). intros l.
      induction l as [|x l IH]; [done|]. simpl. by f_equal.
    - apply Forall_forall. intros p _. by apply trackByFn_unknown. }
  split; [done|]. intros Hlen. eexists. split; [exact Hk|].
  destruct (arr w) as [|x [|y l]]; simpl in *; [lia|lia|].
  intros Hnd. apply NoDup_cons in Hnd as [Hnd _]. apply Hnd. by left.
Qed.

(** The expression shown for the strategy is defined exactly when the
    strategy is one of the three names, which is exactly when the key
    selector returns a defined key; neither changes the world. *)
Theorem trackingString_matches_selector (index : Z) (item : loc) (it : Item) w :
  heap w !! item = Some it →
  ∃ shown k,
    trackingString w = Some (shown, w) ∧
    trackByFn index item w = Some (k, w) ∧
    (is_Some shown ↔ trackingStrategy w ∈ known_tracking) ∧
    (k ≠ KUndefined ↔ trackingStrategy w ∈ known_tracking) ∧
    (shown = Some "$index" ↔ k = KNum index ∧ trackingStrategy w = "index") ∧
    (shown = Some "item.id" ↔ k = KNum (id it) ∧ trackingStrategy w = "id") ∧
    (shown = Some "item" ↔ k = KRef item ∧ trackingStrategy w = "identity").
Proof.
  intros Hit. unfold trackingString, trackByFn, deref, known_tracking. munfold.
  destruct (String.eqb (trackingStrategy w) "index") eqn:E1.
  { apply String.eqb_eq in E1. rewrite E1. simpl.
    eexists _, _. split; [done|]. split; [done|].
    repeat split; try done; try (intros; by repeat constructor);
      try (by intros [_ [=]]); by eauto. }
  destruct (String.eqb (trackingStrategy w) "id") eqn:E2.
  { apply String.eqb_eq in E2. rewrite E2. simpl. rewrite Hit.
    eexists _, _. split; [done|]. split; [done|].
    repeat split; try done; try (intros; by repeat constructor);
      try (by intros [_ [=]]); by eauto. }
  destruct (String.eqb (trackingStrategy w) "identity") eqn:E3.
  { apply String.eqb_eq in E3. rewrite E3. simpl.
    eexists _, _. split; [done|]. split; [done|].
    repeat split; try done; try (intros; by repeat constructor);
      try (by intros [_ [=]]); by eauto. }
  apply String.eqb_neq in E1, E2, E3. simpl.
  eexists _, _. split; [done|]. split; [done|].
  assert (Hn : trackingStrategy w ∉ ["index"; "identity"; "id"]).
  { intros H. repeat (apply elem_of_cons in H as [H|H]; [done|]).
    by apply elem_of_nil in H. }
  repeat split; try done; try (by intros [? ?]); try (by intros [[=] _]).
  all: intros H; by destruct Hn.
Qed.

(** ** The reconciler contract under a renaming of the keys *)

Lemma filter_elem_of_fmap_inj {A} `{EqDecision A} (f : A → A)
    `{!Inj (=) (=) f} (p c : list A) :
  filter (λ y, y ∈ f <$> p) (f <$> c) = f <$> filter (λ x, x ∈ p) c.
Proof.
  induction c as [|x c IH]; [done|]. rewrite fmap_cons.
  destruct (decide (x ∈ p)) as [Hx|Hx].
  - rewrite !filter_cons_True, fmap_cons, IH;
      [done | done | by apply list_elem_of_fmap_inj].
  - rewrite !filter_cons_False, IH; [done | done |].
    by rewrite list_elem_of_fmap_inj.
Qed.

Lemma filter_not_elem_of_fmap_inj {A} `{EqDecision A} (f : A → A)
    `{!Inj (=) (=) f} (p c : list A) :
  filter (λ y, y ∉ f <$> p) (f <$> c) = f <$> filter (λ x, x ∉ p) c.
Proof.
  induction c as [|x c IH]; [done|]. rewrite fmap_cons.
  destruct (decide (x ∈ p)) as [Hx|Hx].
  - rewrite !filter_cons_False, IH; [done | by intros [] |].
    intros H. apply H. by apply list_elem_of_fmap_inj.
  - rewrite !filter_cons_True, fmap_cons, IH; [done | done |].
    by rewrite list_elem_of_fmap_inj.
Qed.

(** Renaming the keys one-to-one renames the three parts of the contract. *)
Lemma reconcile_fmap_inj (f : Key → Key) `{!Inj (=) (=) f} (prev cur : list Key) :
  reused (f <$> prev) (f <$> cur) = f <$> reused prev cur ∧
  destroyed (f <$> prev) (f <$> cur) = f <$> destroyed prev cur ∧
  created (f <$> prev) (f <$> cur) = f <$> created prev cur.
Proof.
  unfold reused, destroyed, created.
  by rewrite filter_elem_of_fmap_inj, !filter_not_elem_of_fmap_inj.
Qed.

(** ** Every tick, not only the first *)

Section EveryTick.

Variable Array_sort : SortEngine.
Variable rnd : nat → Z.

Lemma ten_items_succ a : incremented <$> ten_items a = ten_items (a + 1).
Proof.
  unfold ten_items. replace (a + 1) with (1 + a) by lia.
  rewrite <- (fmap_add_seqZ 1 a 10), <- !list_fmap_compose.
  apply list_fmap_ext. intros _ i _. unfold incremented. simpl.
  f_equal; lia.
Qed.

Lemma shift_keys (a b n : Z) :
  (λ k, match k with KNum m => KNum (a + m) | _ => k end)
    <$> (KNum <$> seqZ b n)
  = KNum <$> seqZ (a + b) n.
Proof. by rewrite <- (fmap_add_seqZ a b n), <- !list_fmap_compose. Qed.

Lemma ten_items_keys a :
  (λ it, KNum (id it)) <$> ten_items a = KNum <$> seqZ a 10.
Proof. unfold ten_items. by rewrite <- list_fmap_compose. Qed.

(** Under [id] tracking and the [increment] strategy, a tick on a snapshot
    with ids [a .. a+9], all of them safe integers, gives ids
    [a+1 .. a+10]: nine keys are reused, key [a] is destroyed and key [a+10]
    is created.  The world after the tick is of the same form, so this holds
    at every tick, for as long as the ids stay safe integers. *)
Theorem id_increment_every_tick (a : Z) w :
  trackingStrategy w = "id" →
  changeStrategy w = "increment" →
  items w = Some (ten_items a) →
  safe_integer a →
  safe_integer (a + 9) →
  ∃ w' prev cur,
    mutation_tick Array_sort rnd w = Some (tt, w') ∧
    items w' = Some (ten_items (a + 1)) ∧
    trackingStrategy w' = "id" ∧ changeStrategy w' = "increment" ∧
    keys w = Some prev ∧ keys w' = Some cur ∧
    reused prev cur = KNum <$> seqZ (a + 1) 9 ∧
    destroyed prev cur = [KNum a] ∧
    created prev cur = [KNum (a + 10)] ∧
    js_add (a + 9) 1 = a + 10.
Proof.
  intros Ht Hc Hits Hlo Hhi.
  assert (Hlast : js_add (a + 9) 1 = a + 10).
  { rewrite js_add_safe by done. lia. }
  destruct (increment_tick_items Array_sort rnd w _ Hc Hits)
    as (w' & Hrun & Hits' & Ht').
  rewrite ten_items_succ in Hits'. rewrite Ht in Ht'.
  assert (Hc' : changeStrategy w' = "increment").
  { rewrite (tick_increment_run Array_sort rnd w _ Hc Hits) in Hrun.
    by injection Hrun as <-. }
  eexists w', _, _. split; [done|]. split; [done|].
  split; [done|]. split; [done|].
  split; [by apply keys_id|]. split; [by apply keys_id|].
  rewrite !ten_items_keys.
  set (f := λ k, match k with KNum m => KNum (a + m) | _ => k end).
  assert (Hinj : Inj (=) (=) f).
  { intros [x| |] [y| |] Hxy; simpl in Hxy; try done.
    injection Hxy as Hxy. f_equal. lia. }
  assert (Hprev : KNum <$> seqZ a 10 = f <$> (KNum <$> seqZ 0 10)).
  { unfold f. by rewrite shift_keys, Z.add_0_r. }
  assert (Hcur : KNum <$> seqZ (a + 1) 10 = f <$> (KNum <$> seqZ 1 10)).
  { unfold f. by rewrite shift_keys. }
  rewrite Hprev, Hcur.
  destruct (reconcile_fmap_inj f (KNum <$> seqZ 0 10) (KNum <$> seqZ 1 10))
    as (-> & -> & ->).
  split; [|split; [|split; [|exact Hlast]]].
  - change (reused (KNum <$> seqZ 0 10) (KNum <$> seqZ 1 10))
      with (KNum <$> seqZ 1 9).
    unfold f. by rewrite shift_keys.
  - change (destroyed (KNum <$> seqZ 0 10) (KNum <$> seqZ 1 10))
      with [KNum 0].
    simpl. by rewrite Z.add_0_r.
  - change (created (KNum <$> seqZ 0 10) (KNum <$> seqZ 1 10))
      with [KNum 10].
    done.
Qed.

End EveryTick.

(** ** Worlds the page can reach *)

Lemma steady_of_fields w w' :
  heap w' = heap w → arr w' ≡ₚ arr w → intervals w' = intervals w →
  steady w → steady w'.
Proof.
  intros Hh Ha Hi (Hall & Hnd & Hint & Hits).
  assert (Hall' : allocated w').
  { unfold allocated in *. by rewrite Ha, Hh. }
  split; [done|]. split; [by rewrite Ha|]. split; [congruence|].
  destruct Hits as [Hnil|(a & its & Hpos & Hits & Hp)].
  - left. rewrite Hnil in Ha. by apply Permutation_nil_r in Ha.
  - right. exists a. eexists. split; [done|].
    split; [by apply items_total|].
    rewrite (items_total w Hall) in Hits. injection Hits as <-.
    by rewrite Hh, Ha.
Qed.

Lemma steady_of_batch w w' (batch : list Item) :
  heap w' = heap w ++ batch →
  arr w' = seq (length (heap w)) (length batch) →
  intervals w' = [(CbMutationTick, 3000)] →
  (batch = [] ∨ ∃ a, 0 ≤ a ∧ batch ≡ₚ ten_items a) →
  steady w'.
Proof.
  intros Hh Ha Hi Hb.
  assert (Hits : items w' = Some batch).
  { apply items_Forall2. rewrite Hh, Ha. apply lookup_batch. }
  split; [by eapply items_allocated|].
  split; [rewrite Ha; apply NoDup_seq|]. split; [done|].
  destruct Hb as [->|(a & Hpos & Hp)].
  - left. by rewrite Ha.
  - right. by exists a, batch.
Qed.

Lemma run_callbacks_steady (cs : list Callback) w :
  steady w →
  ∃ w' us, mapM run_callback cs w = Some (us, w') ∧
    steady w' ∧ heap w `prefix_of` heap w'.
Proof.
  revert w. induction cs as [|cb cs IH]; intros w Hw.
  - by exists w, [].
  - rewrite mapM_cons_run, run_callback_run.
    edestruct IH as (w' & us & -> & Hw' & Hpre).
    + eapply (steady_of_batch w _ (ten_items 0)); [done|done| |].
      * simpl. by destruct Hw as (_ & _ & ? & _).
      * right. by exists 0.
    + eexists w', _. split; [done|]. split; [done|].
      simpl in Hpre. etransitivity; [|exact Hpre]. by apply prefix_app_r.
Qed.

Lemma seq_keeps_steady (m1 m2 : M unit) :
  keeps_steady m1 → keeps_steady m2 → keeps_steady (m1;; m2).
Proof.
  intros H1 H2 w Hw.
  destruct (H1 w Hw) as (w1 & Hr1 & Hw1 & Hp1).
  destruct (H2 w1 Hw1) as (w2 & Hr2 & Hw2 & Hp2).
  exists w2. unfold mbind, M_bind. rewrite Hr1.
  split; [done|]. split; [done|]. by etransitivity.
Qed.

(** A method that touches neither the heap, the snapshot nor the timers. *)
Lemma modify_keeps_steady (f : World → World) :
  (∀ w, heap (f w) = heap w ∧ arr (f w) = arr w ∧
        intervals (f w) = intervals w) →
  keeps_steady (modify f).
Proof.
  intros Hf w Hw. destruct (Hf w) as (Hh & Ha & Hi).
  exists (f w). split; [done|]. split; [|by rewrite Hh].
  eapply steady_of_fields; [done| |done|done]. by rewrite Ha.
Qed.

Lemma reset_keeps_steady : keeps_steady reset.
Proof.
  intros w (Hall & Hnd & Hint & Hits). eexists. split; [reflexivity|].
  split; [|done].
  split; [by constructor|]. split; [by constructor|]. split; [done|by left].
Qed.

Lemma render_keeps_steady : keeps_steady render.
Proof.
  intros w Hw. unfold render. munfold. simpl.
  edestruct (run_callbacks_steady (pendingAfterNextRender w))
    as (w' & us & -> & Hw' & Hpre).
  - eapply steady_of_fields; [| | |exact Hw]; done.
  - by exists w'.
Qed.

Lemma router_navigate_keeps_steady : keeps_steady router_navigate.
Proof.
  intros w Hw. eexists. split; [apply router_navigate_run|].
  split; [|done]. eapply steady_of_fields; [| | |exact Hw]; done.
Qed.

Lemma change_detection_keeps_steady : keeps_steady change_detection.
Proof.
  intros w Hw. unfold change_detection.
  unfold mbind at 1, M_bind at 1, gets at 1.
  apply seq_keeps_steady; [|apply render_keeps_steady|done].
  destruct (effectScheduled w).
  - apply seq_keeps_steady; [by apply modify_keeps_steady|].
    apply seq_keeps_steady;
      [apply reset_keeps_steady|apply router_navigate_keeps_steady].
  - intros w1 Hw1. by exists w1.
Qed.

Lemma handler_keeps_steady (current : World → string)
    (set : string → World → World) (strategy : string) :
  (∀ s w, heap (set s w) = heap w ∧ arr (set s w) = arr w ∧
          intervals (set s w) = intervals w) →
  keeps_steady
    (old ← gets current;
     modify (set strategy);;
     if String.eqb old strategy then mret tt
     else modify (set_effectScheduled true)).
Proof.
  intros Hset w Hw. unfold mbind at 1, M_bind at 1, gets at 1.
  apply seq_keeps_steady; [by apply modify_keeps_steady| |done].
  destruct (String.eqb (current w) strategy).
  - intros w1 Hw1. by exists w1.
  - by apply modify_keeps_steady.
Qed.

Section Reachable.

Variable Array_sort : SortEngine.
Variable rnd : nat → Z.
Hypothesis Array_sort_perm : ∀ answers xs, (Array_sort answers xs).1 ≡ₚ xs.

Lemma tick_steady w :
  steady w →
  ∃ w', mutation_tick Array_sort rnd w = Some (tt, w') ∧
    steady w' ∧ heap w `prefix_of` heap w'.
Proof.
  intros Hw. pose proof Hw as (Hall & Hnd & Hint & Hits).
  destruct (decide (changeStrategy w = "increment")) as [Hc|Hc].
  - destruct (allocated_items w Hall) as [its Hi].
    eexists. split; [by apply tick_increment_run|]. simpl.
    split; [|by apply prefix_app_r].
    eapply (steady_of_batch w _ (incremented <$> its)); [done| |done|].
    + simpl. rewrite length_fmap. by rewrite (items_length w its Hi).
    + destruct Hits as [Hnil|(a & its0 & Hpos & Hi0 & Hp)].
      * left. apply items_length in Hi. rewrite Hnil in Hi.
        by destruct its.
      * right. exists (a + 1). split; [lia|].
        rewrite Hi in Hi0. injection Hi0 as <-.
        by rewrite Hp, ten_items_succ.
  - eexists. split; [by apply tick_shuffle_run|]. simpl.
    split; [|done].
    eapply steady_of_fields; [| | |exact Hw]; try done.
    simpl. apply Array_sort_perm.
Qed.

Lemma perform_keeps_steady (a : Action) :
  keeps_steady (perform Array_sort rnd a).
Proof.
  destruct a as [| | | |s|s|s|]; simpl.
  - (* the period elapses *)
    intros w Hw.
    unfold interval_elapsed. unfold mbind at 1, M_bind at 1, gets at 1.
    pose proof Hw as (_ & _ & Hint & _). rewrite Hint.
    unfold mbind, M_bind. rewrite mapM_cons_run.
    change (run_timer Array_sort rnd (CbMutationTick, 3000) w)
      with (mutation_tick Array_sort rnd w).
    destruct (tick_steady w) as (w' & -> & Hw' & Hpre); [done|].
    rewrite mapM_nil_run. by exists w'.
  - apply change_detection_keeps_steady.
  - apply reset_keeps_steady.
  - apply render_keeps_steady.
  - by apply (handler_keeps_steady trackingStrategy set_trackingStrategy).
  - by apply (handler_keeps_steady domStrategy set_domStrategy).
  - by apply (handler_keeps_steady changeStrategy set_changeStrategy).
  - apply seq_keeps_steady; by apply modify_keeps_steady.
Qed.

Lemma perform_all_steady (acts : list Action) w :
  steady w →
  ∃ w', perform_all Array_sort rnd acts w = Some (tt, w') ∧
    steady w' ∧ heap w `prefix_of` heap w'.
Proof.
  revert w. induction acts as [|a acts IH]; intros w Hw.
  - by exists w.
  - destruct (perform_keeps_steady a w Hw) as (w1 & Hrun & Hw1 & Hpre1).
    destruct (IH w1 Hw1) as (w' & Hrun' & Hw' & Hpre').
    exists w'. simpl. unfold mbind, M_bind. rewrite Hrun.
    split; [done|]. split; [done|]. by etransitivity.
Qed.

Lemma constructor_steady search w0 :
  App_constructor (boot search) = Some (tt, w0) → steady w0.
Proof.
  intros H. destruct (constructor_allocated search w0 H) as [Hall _].
  destruct (constructor_items search w0 H) as (Ha & _ & Hits).
  split; [done|]. split; [rewrite Ha; apply NoDup_seq|].
  split; [rewrite constructor_run in H; by injection H as <-|].
  right. by exists 0, (ten_items 0).
Qed.

Lemma ten_items_ids a : id <$> ten_items a = seqZ a 10.
Proof.
  unfold ten_items. rewrite <- list_fmap_compose.
  generalize (seqZ a 10). intros l.
  induction l as [|x l IH]; [done|]. by rewrite fmap_cons, IH.
Qed.

(** What [steady] says about the items behind the snapshot. *)
Lemma steady_items w :
  steady w →
  ∃ its, items w = Some its ∧
    (length (arr w) = 0%nat ∨ length (arr w) = 10%nat) ∧
    Forall (λ it, value it = id it ∧ 0 ≤ id it) its ∧
    NoDup (id <$> its).
Proof.
  intros (Hall & Hnd & Hint & [Hnil|(a & its & Hpos & Hits & Hp)]).
  - exists []. rewrite Hnil. unfold items. rewrite Hnil.
    split; [done|]. split; [by left|]. split; constructor.
  - exists its. split; [done|]. split; [|split].
    + right. rewrite <- (items_length w its Hits), Hp.
      unfold ten_items. by rewrite length_fmap, length_seqZ.
    + rewrite Hp. apply Forall_forall. intros it Hit.
      apply list_elem_of_fmap in Hit as (i & -> & Hi).
      apply elem_of_seqZ in Hi. simpl. lia.
    + rewrite Hp, ten_items_ids. apply NoDup_seqZ.
Qed.

(** Whatever the page goes through after the constructor (timer periods,
    change detection, resets, renders, clicks on any of the three groups,
    teardown, in any order) every step returns, and the snapshot it reaches
    holds distinct references to zero or ten existing items, each with
    [value = id], a non-negative id, and ids that differ from one another. *)
Theorem reachable_snapshot_shape (search : list (string * string))
    (acts : list Action) :
  ∃ w0 w its,
    App_constructor (boot search) = Some (tt, w0) ∧
    perform_all Array_sort rnd acts w0 = Some (tt, w) ∧
    items w = Some its ∧
    (length (arr w) = 0%nat ∨ length (arr w) = 10%nat) ∧
    NoDup (arr w) ∧
    Forall (λ it, value it = id it ∧ 0 ≤ id it) its ∧
    NoDup (id <$> its).
Proof.
  destruct (App_constructor (boot search)) as [[[] w0]|] eqn:Hw0;
    [|by rewrite constructor_run in Hw0].
  destruct (perform_all_steady acts w0 (constructor_steady search w0 Hw0))
    as (w & Hrun & Hw & _).
  destruct (steady_items w Hw) as (its & Hits & Hlen & Hv & Hnd).
  exists w0, w, its. repeat split; try done. by destruct Hw as (_ & ? & _).
Qed.

(** In every world the page reaches, the keys of the snapshot differ from
    one another under each of the three tracking strategies. *)
Theorem reachable_keys_distinct (search : list (string * string))
    (acts : list Action) :
  ∃ w0 w,
    App_constructor (boot search) = Some (tt, w0) ∧
    perform_all Array_sort rnd acts w0 = Some (tt, w) ∧
    (trackingStrategy w ∈ known_tracking →
       ∃ ks, keys w = Some ks ∧ NoDup ks ∧ length ks = length (arr w)).
Proof.
  destruct (App_constructor (boot search)) as [[[] w0]|] eqn:Hw0;
    [|by rewrite constructor_run in Hw0].
  destruct (perform_all_steady acts w0 (constructor_steady search w0 Hw0))
    as (w & Hrun & Hw & _).
  destruct (steady_items w Hw) as (its & Hits & _ & _ & Hids).
  exists w0, w. split; [done|]. split; [done|]. intros Hk.
  unfold known_tracking in Hk.
  apply elem_of_cons in Hk as [Hk|Hk];
    [|apply elem_of_cons in Hk as [Hk|Hk];
      [|apply elem_of_cons in Hk as [Hk|Hk]; [|by apply elem_of_nil in Hk]]].
  - eexists. split; [by apply keys_index|]. split.
    + apply NoDup_fmap_2; [|apply NoDup_seq].
      intros x y [= Hxy]. lia.
    + by rewrite length_fmap, length_seq.
  - eexists. split; [by apply keys_identity|]. split.
    + apply NoDup_fmap_2; [by intros x y [=]|]. by destruct Hw as (_ & ? & _).
    + by rewrite length_fmap.
  - eexists. split; [by apply keys_id|]. split.
    + rewrite (list_fmap_compose id KNum).
      apply NoDup_fmap_2; [by intros x y [=]|done].
    + rewrite length_fmap. by apply items_length.
Qed.

(** No item object is ever changed or dropped: whatever the page goes
    through, an address that held an item still holds the same item. *)
Theorem items_never_change (acts : list Action) w :
  steady w →
  ∃ w', perform_all Array_sort rnd acts w = Some (tt, w') ∧
    ∀ (l : loc) it, heap w !! l = Some it → heap w' !! l = Some it.
Proof.
  intros Hw.
  destruct (perform_all_steady acts w Hw) as (w' & Hrun & _ & Hpre).
  exists w'. split; [done|]. intros l it Hl.
  by eapply prefix_lookup_Some.
Qed.

(** The timer of the constructor is the only interval timer the page ever
    has: resets, strategy changes and change detection start no second one,
    and nothing, teardown included, stops the first. *)
Theorem one_timer_forever (search : list (string * string))
    (acts : list Action) :
  ∃ w0 w,
    App_constructor (boot search) = Some (tt, w0) ∧
    perform_all Array_sort rnd acts w0 = Some (tt, w) ∧
    intervals w = [(CbMutationTick, 3000)].
Proof.
  destruct (App_constructor (boot search)) as [[[] w0]|] eqn:Hw0;
    [|by rewrite constructor_run in Hw0].
  destruct (perform_all_steady acts w0 (constructor_steady search w0 Hw0))
    as (w & Hrun & (_ & _ & Hint & _) & _).
  by exists w0, w.
Qed.

(** With any engine whose sort permutes: under [index] tracking the keys
    are the positions, so a tick, whatever the change strategy, leaves the
    keys as they are: every node is reused, none is created or destroyed. *)
Theorem index_tick_reuses_all w :
  trackingStrategy w = "index" →
  allocated w →
  ∃ w' ks,
    mutation_tick Array_sort rnd w = Some (tt, w') ∧
    keys w = Some ks ∧ keys w' = Some ks ∧
    ks = (λ i, KNum (Z.of_nat i)) <$> seq 0 (length (arr w)) ∧
    reused ks ks = ks ∧ created ks ks = [] ∧ destroyed ks ks = [] ∧
    trackingStrategy w' = "index" ∧ allocated w'.
Proof.
  intros Ht Hall.
  destruct (tick_invariant Array_sort rnd Array_sort_perm w Hall)
    as (w' & Hrun & Hlen & Hall' & Ht' & _).
  rewrite Ht in Ht'.
  eexists w', _. split; [done|]. split; [by apply keys_index|].
  split; [by rewrite (keys_index w' Ht'), Hlen|]. split; [done|].
  destruct (reconcile_same_members
              ((λ i, KNum (Z.of_nat i)) <$> seq 0 (length (arr w)))
              ((λ i, KNum (Z.of_nat i)) <$> seq 0 (length (arr w))))
    as (-> & -> & ->); done.
Qed.

(** A change strategy other than [increment], known or not, takes the
    shuffle branch: the tick allocates nothing and publishes the old
    references in another order. *)
Theorem other_change_strategy_shuffles w :
  changeStrategy w ≠ "increment" →
  ∃ w', mutation_tick Array_sort rnd w = Some (tt, w') ∧
    heap w' = heap w ∧ arr w' ≡ₚ arr w ∧
    (randomCalls w ≤ randomCalls w')%nat ∧
    log w' = log w ++ [EvPublish (arr w')].
Proof.
  intros Hc. eexists. split; [by apply tick_shuffle_run|]. simpl.
  split; [done|]. split; [apply Array_sort_perm|]. split; [lia|done].
Qed.

End Reachable.

(** Under [index] tracking and the [increment] strategy a tick keeps every
    key, and the item at every position shows another value than before:
    each reused node has its binding changed.  The values are safe integers,
    where adding 1 in double arithmetic gives another number. *)
Theorem index_increment_rebinds_all (sort : SortEngine) (rnd : nat → Z) w its :
  trackingStrategy w = "index" →
  changeStrategy w = "increment" →
  items w = Some its →
  Forall (λ it, safe_integer (value it)) its →
  ∃ w' its',
    mutation_tick sort rnd w = Some (tt, w') ∧
    items w' = Some its' ∧
    keys w' = keys w ∧
    ∀ (i : nat) it, its !! i = Some it →
      ∃ it', its' !! i = Some it' ∧
             value it' = js_add (value it) 1 ∧
             value it' = value it + 1 ∧ value it' ≠ value it.
Proof.
  intros Ht Hc Hits Hsafe.
  destruct (increment_tick_items sort rnd w its Hc Hits)
    as (w' & Hrun & Hits' & Ht').
  rewrite Ht in Ht'.
  exists w', (incremented <$> its). split; [done|]. split; [done|]. split.
  - rewrite (keys_index w Ht), (keys_index w' Ht').
    rewrite (tick_increment_run sort rnd w its Hc Hits) in Hrun.
    injection Hrun as <-. simpl. by rewrite length_seq.
  - intros i it Hi. exists (incremented it).
    rewrite list_lookup_fmap, Hi. split; [done|].
    unfold incremented. simpl. split; [|lia].
    rewrite js_add_safe; [done|].
    rewrite Forall_forall in Hsafe. apply Hsafe.
    by eapply list_elem_of_lookup_2.
Qed.

(** ** The directive [Tracked] *)

Lemma getDomValue_classList_add c e :
  getDomValue (classList_add c e) = getDomValue e.
Proof. reflexivity. Qed.

Lemma domValue_addClass el el' c p :
  domValue el' (addClass el c p) = domValue el' p.
Proof.
  unfold domValue, addClass. simpl.
  destruct (decide (el = el')) as [->|Hne].
  - rewrite lookup_alter_eq. by destruct (elements p !! el').
  - by rewrite lookup_alter_ne.
Qed.

Lemma afterEveryRender_hook_differs el p :
  domValue el p ≠ elementRegistry (world p) !! el →
  afterEveryRender_hook el p = addClass el "binding-highlight" p.
Proof. intros H. unfold afterEveryRender_hook. by rewrite decide_False. Qed.

Lemma afterEveryRender_hook_same el p :
  domValue el p = elementRegistry (world p) !! el →
  afterEveryRender_hook el p = p.
Proof. intros H. unfold afterEveryRender_hook. by rewrite decide_True. Qed.

Lemma recorded_matches el p :
  domValue el (afterNextRender_hook el p)
  = elementRegistry (world (afterNextRender_hook el p)) !! el.
Proof.
  unfold afterNextRender_hook. rewrite domValue_addClass.
  unfold domValue, registry_set. simpl.
  destruct (elements p !! el ≫= getDomValue) as [s|]; simpl.
  - by rewrite lookup_insert_eq.
  - by rewrite lookup_delete_eq.
Qed.

(** Once the next-render callback has recorded the value of an element, the
    every-render callback leaves the page alone for as long as the element
    shows that value. *)
Theorem recorded_value_is_quiet (el : nat) (p : Page) :
  afterEveryRender_hook el (afterNextRender_hook el p)
  = afterNextRender_hook el p.
Proof. apply afterEveryRender_hook_same, recorded_matches. Qed.

(** The every-render callback never writes the registry, so the value it
    compares with is the one recorded at the first render.  While an element
    shows another value than the recorded one, every run of the callback
    marks it again and queues one more removal, whether or not the value
    changed since the previous render. *)
Theorem stale_value_highlights_every_render (n : nat) (el : nat)
    (e : Element) (p : Page) :
  elements p !! el = Some e →
  domValue el p ≠ elementRegistry (world p) !! el →
  world (Nat.iter n (afterEveryRender_hook el) p) = world p ∧
  timeouts (Nat.iter n (afterEveryRender_hook el) p)
  = timeouts p ++ replicate n (el, "binding-highlight") ∧
  domValue el (Nat.iter n (afterEveryRender_hook el) p) = domValue el p ∧
  ∃ e', elements (Nat.iter n (afterEveryRender_hook el) p) !! el = Some e' ∧
        ((0 < n)%nat → "binding-highlight" ∈ classList e').
Proof.
  intros He Hne. induction n as [|n (Hw & Ht & Hd & e' & He' & _)].
  - simpl. rewrite app_nil_r. repeat split; try done.
    exists e. split; [done|lia].
  - rewrite Nat.iter_succ.
    set (q := Nat.iter n (afterEveryRender_hook el) p) in *.
    rewrite (afterEveryRender_hook_differs el q) by (by rewrite Hd, Hw).
    split; [done|]. split; [|split].
    + simpl. rewrite Ht, <- app_assoc. f_equal.
      symmetry. apply replicate_cons_app.
    + by rewrite domValue_addClass.
    + exists (classList_add "binding-highlight" e'). simpl.
      rewrite lookup_alter_eq, He'. split; [done|]. intros _.
      simpl. set_solver.
Qed.

Lemma addClass_covers el c p : pending_covers p → pending_covers (addClass el c p).
Proof.
  intros Hp el' e' c' He' Hc'. unfold addClass in *. simpl in *.
  apply elem_of_app.
  destruct (decide (el = el')) as [->|Hne].
  - rewrite lookup_alter_eq in He'.
    destruct (elements p !! el') as [e0|] eqn:E0; simplify_eq/=.
    apply elem_of_union in Hc' as [Hc'|Hc'].
    + apply elem_of_singleton in Hc' as ->. right. by left.
    + left. by eapply Hp.
  - rewrite lookup_alter_ne in He' by done. left. by eapply Hp.
Qed.

Lemma timeout_fires_covers p : pending_covers p → pending_covers (timeout_fires p).
Proof.
  intros Hp. unfold timeout_fires.
  destruct (timeouts p) as [|[el c] rest] eqn:Et; [done|].
  intros el' e' c' He' Hc'. simpl in *.
  destruct (decide (el = el')) as [->|Hne].
  - rewrite lookup_alter_eq in He'.
    destruct (elements p !! el') as [e0|] eqn:E0; simplify_eq/=.
    apply elem_of_difference in Hc' as [Hc' Hn].
    specialize (Hp el' e0 c' E0 Hc'). rewrite Et in Hp.
    apply elem_of_cons in Hp as [Hp|Hp]; [|done].
    injection Hp as ->. destruct Hn. by apply elem_of_singleton.
  - rewrite lookup_alter_ne in He' by done.
    specialize (Hp el' e' c' He' Hc'). rewrite Et in Hp.
    apply elem_of_cons in Hp as [Hp|Hp]; [|done]. by injection Hp as -> ->.
Qed.

Lemma dom_step_covers ev p : pending_covers p → pending_covers (dom_step ev p).
Proof.
  intros Hp. destruct ev as [el|el| |el text|el v|el text input|]; simpl.
  - unfold afterEveryRender_hook. case_decide; [done|by apply addClass_covers].
  - unfold afterNextRender_hook. apply addClass_covers.
    intros el' e' c'. simpl. apply Hp.
  - by apply timeout_fires_covers.
  - intros el' e' c' He' Hc'. simpl in *.
    destruct (decide (el = el')) as [->|Hne].
    + rewrite lookup_alter_eq in He'.
      destruct (elements p !! el') as [e0|] eqn:E0; simplify_eq/=.
      by eapply Hp.
    + rewrite lookup_alter_ne in He' by done. by eapply Hp.
  - intros el' e' c' He' Hc'. simpl in *.
    destruct (decide (el = el')) as [->|Hne].
    + rewrite lookup_alter_eq in He'.
      destruct (elements p !! el') as [e0|] eqn:E0; simplify_eq/=.
      by eapply Hp.
    + rewrite lookup_alter_ne in He' by done. by eapply Hp.
  - intros el' e' c' He' Hc'. simpl in *.
    destruct (decide (el = el')) as [->|Hne].
    + rewrite lookup_insert_eq in He'. simplify_eq/=. set_solver.
    + rewrite lookup_insert_ne in He' by done. by eapply Hp.
  - unfold on_world. destruct (reset (world p)) as [[[] w]|]; [|done].
    intros el' e' c'. simpl. apply Hp.
Qed.

Lemma dom_steps_covers evs p : pending_covers p → pending_covers (dom_steps evs p).
Proof.
  revert p. induction evs as [|ev evs IH]; intros p Hp; [done|].
  simpl. apply IH. by apply dom_step_covers.
Qed.

Lemma timeout_fires_length p :
  length (timeouts (timeout_fires p)) = pred (length (timeouts p)).
Proof.
  unfold timeout_fires.
  destruct (timeouts p) as [|[el c] rest] eqn:E; simpl; [by rewrite E|done].
Qed.

Lemma drain_spec p :
  pending_covers p → pending_covers (drain p) ∧ timeouts (drain p) = [].
Proof.
  unfold drain. generalize (eq_refl (length (timeouts p))).
  generalize (length (timeouts p)) at 1 3 4. intros n. revert p.
  induction n as [|n IH]; intros p Hn Hp.
  - simpl. split; [done|]. by apply nil_length_inv.
  - rewrite Nat.iter_succ_r. apply IH.
    + rewrite timeout_fires_length. lia.
    + by apply timeout_fires_covers.
Qed.

(** Markers are transient.  If every class on the page has a pending
    removal, as on a page where no element carries a class, then after any
    sequence of callbacks, DOM updates, element creations, resets and
    timeouts, once the pending timeouts have fired no element carries any
    class and no timeout is left. *)
Theorem markers_are_transient (evs : list DomEvent) (p : Page) :
  pending_covers p →
  timeouts (drain (dom_steps evs p)) = [] ∧
  ∀ (el : nat) (e : Element),
    elements (drain (dom_steps evs p)) !! el = Some e → classList e = ∅.
Proof.
  intros Hp.
  destruct (drain_spec (dom_steps evs p)) as [Hc Ht];
    [by apply dom_steps_covers|].
  split; [done|]. intros el e He.
  apply set_eq. intros c. split; [|set_solver].
  intros Hin. specialize (Hc el e c He Hin). rewrite Ht in Hc.
  by apply elem_of_nil in Hc.
Qed.

(** A second [addClass] within the delay does not prolong the marker: when
    the first timeout fires the class is removed, although the removal
    queued by the second call is still pending. *)
Theorem second_addClass_does_not_prolong (el : nat) (c : string)
    (e : Element) (p : Page) :
  elements p !! el = Some e →
  timeouts p = [] →
  timeouts (timeout_fires (addClass el c (addClass el c p))) = [(el, c)] ∧
  ∃ e', elements (timeout_fires (addClass el c (addClass el c p))) !! el
        = Some e' ∧
        (c ∉ classList e') ∧
        classList e' = classList e ∖ {[c]}.
Proof.
  intros He Ht. unfold timeout_fires, addClass. simpl. rewrite Ht. simpl.
  split; [done|].
  rewrite !lookup_alter_eq, He. simpl.
  eexists. split; [done|]. simpl. split.
  - intros [_ Hn]%elem_of_difference. apply Hn. by apply elem_of_singleton.
  - apply set_eq. intros x.
    rewrite !elem_of_difference, !elem_of_union, elem_of_singleton. tauto.
Qed.


(** ** A strategy change leads to a reset *)

Lemma run_callbacks_frame (cs : list Callback) w :
  ∃ w' us, mapM run_callback cs w = Some (us, w') ∧
    heap w `prefix_of` heap w' ∧
    selections w' = selections w ∧
    elementRegistry w' = elementRegistry w ∧
    queryParams w' = queryParams w ∧
    effectScheduled w' = effectScheduled w.
Proof.
  revert w. induction cs as [|cb cs IH]; intros w.
  - by exists w, [].
  - rewrite mapM_cons_run, run_callback_run.
    edestruct IH as (w' & us & -> & Hpre & Hsel & Hreg & Hq & He).
    eexists w', _. split; [done|]. simpl in *.
    split; [|done]. etransitivity; [|exact Hpre]. by apply prefix_app_r.
Qed.

(** A render with at least one queued callback ends with ten new items
    published; nothing else that the component reads is touched. *)
Lemma render_publishes_new_items w :
  pendingAfterNextRender w ≠ [] →
  ∃ w', render w = Some (tt, w') ∧
    items w' = Some (ten_items 0) ∧
    (∀ l, l ∈ arr w' → heap w !! l = None) ∧
    selections w' = selections w ∧
    elementRegistry w' = elementRegistry w ∧
    queryParams w' = queryParams w ∧
    effectScheduled w' = effectScheduled w.
Proof.
  intros Hne.
  destruct (exists_last (A:=Callback) (l:=pendingAfterNextRender w))
    as (cs & cb & Hcs).
  { intros H. apply Hne. exact H. }
  unfold render. munfold. simpl. rewrite Hcs, mapM_app_run.
  edestruct (run_callbacks_frame cs) as (w1 & us & -> & Hpre & Hsel & Hreg & Hq & He).
  rewrite mapM_cons_run, run_callback_run, mapM_nil_run.
  eexists. split; [reflexivity|]. simpl in *.
  split; [|split; [|by repeat split]].
  - apply items_Forall2. simpl. apply (lookup_batch (heap w1) (ten_items 0)).
  - intros l Hl. change (l ∈ seq (length (heap w1)) 10) in Hl.
    apply elem_of_seq in Hl. apply lookup_ge_None.
    apply prefix_length in Hpre. lia.
Qed.

(** After [router.navigate] the location is the query of the router's
    current URL: it carries the three selections under their names, and as
    for other parameters those the router's URL had before, not those of the
    page location.  The router's URL has none before its first navigation,
    so after the first change detection that follows the constructor the
    location holds the three selections and nothing else, whatever else the
    page was loaded with. *)
Theorem navigate_mirrors_selections w :
  (∃ w', router_navigate w = Some (tt, w') ∧
     URLSearchParams_get (queryParams w') "tracking"
     = Some (trackingStrategy w) ∧
     URLSearchParams_get (queryParams w') "dom" = Some (domStrategy w) ∧
     URLSearchParams_get (queryParams w') "change" = Some (changeStrategy w) ∧
     (∀ name, name ∉ ["tracking"; "dom"; "change"] →
        URLSearchParams_get (queryParams w') name
        = URLSearchParams_get (routerParams w) name) ∧
     routerParams w' = queryParams w' ∧
     set_routerParams (routerParams w) (set_queryParams (queryParams w) w')
     = w) ∧
  (∀ search, ∃ w0 w1,
     App_constructor (boot search) = Some (tt, w0) ∧
     change_detection w0 = Some (tt, w1) ∧
     queryParams w1
     = [("tracking", trackingStrategy w0); ("dom", domStrategy w0);
        ("change", changeStrategy w0)]).
Proof.
  split.
  - eexists. split; [apply router_navigate_run|]. simpl.
    split; [|split; [|split; [|split; [|split]]]].
    + rewrite (get_merge_other "change" "tracking") by done.
      rewrite (get_merge_other "dom" "tracking") by done.
      apply get_merge_same.
    + rewrite (get_merge_other "change" "dom") by done.
      apply get_merge_same.
    + apply get_merge_same.
    + intros name Hn.
      rewrite !get_merge_other; [done|..];
        intros <-; apply Hn; by repeat constructor.
    + done.
    + by destruct w.
  - intros search.
    destruct (App_constructor (boot search)) as [[[] w0]|] eqn:Hw0;
      [|by rewrite constructor_run in Hw0].
    assert (Heff : effectScheduled w0 = true ∧ routerParams w0 = []).
    { rewrite constructor_run in Hw0. by injection Hw0 as <-. }
    destruct Heff as [Heff Hrp].
    exists w0. unfold change_detection.
    unfold mbind at 1, M_bind at 1, gets at 1.
    rewrite Heff. unfold mbind at 1, M_bind at 1. unfold effect_body.
    set (q := merge_param "change" (changeStrategy w0)
                (merge_param "dom" (domStrategy w0)
                   (merge_param "tracking" (trackingStrategy w0)
                      (routerParams w0)))).
    set (w2 := set_queryParams q
                 (set_routerParams q
                    (log_event EvRegistryClear
                       (set_elementRegistry ∅
                          (set_pendingAfterNextRender
                             (pendingAfterNextRender w0 ++ [CbResetPublish])
                             (log_event (EvPublish [])
                                (set_arr [] (set_effectScheduled false w0)))))))).
    change ((modify (set_effectScheduled false);; reset;; router_navigate) w0)
      with (Some (tt, w2)).
    destruct (render_publishes_new_items w2)
      as (w' & Hr & _ & _ & _ & _ & Hq & _).
    { simpl. by destruct (pendingAfterNextRender w0). }
    exists w'. split; [done|]. split; [exact Hr|].
    rewrite Hq. simpl. unfold q.
    rewrite Hrp. apply merge_param_nil_three.
Qed.

(** Choosing a value other than the current one in any of the three groups
    leads, at the next change detection, to a full reset: the new selection
    is in place and written to the location, the registry is empty, and the
    snapshot refers to ten items [id = value = index] none of which existed
    before. *)
Theorem strategy_change_resets (sort : SortEngine) (rnd : nat → Z)
    (a : Action) (s : string) w :
  (a = ActTracking s ∧ trackingStrategy w ≠ s) ∨
  (a = ActDom s ∧ domStrategy w ≠ s) ∨
  (a = ActChange s ∧ changeStrategy w ≠ s) →
  ∃ w',
    (perform sort rnd a;; change_detection) w
    = Some (tt, w') ∧
    items w' = Some (ten_items 0) ∧
    (∀ l, l ∈ arr w' → heap w !! l = None) ∧
    elementRegistry w' = ∅ ∧
    effectScheduled w' = false ∧
    (a = ActTracking s →
       selections w' = (s, domStrategy w, changeStrategy w) ∧
       URLSearchParams_get (queryParams w') "tracking" = Some s) ∧
    (a = ActDom s →
       selections w' = (trackingStrategy w, s, changeStrategy w) ∧
       URLSearchParams_get (queryParams w') "dom" = Some s) ∧
    (a = ActChange s →
       selections w' = (trackingStrategy w, domStrategy w, s) ∧
       URLSearchParams_get (queryParams w') "change" = Some s).
Proof.
  intros Ha.
  assert (Hstep : ∃ w1, perform sort rnd a w = Some (tt, w1) ∧
            effectScheduled w1 = true ∧ heap w1 = heap w ∧
            ((a = ActTracking s ∧
              selections w1 = (s, domStrategy w, changeStrategy w)) ∨
             (a = ActDom s ∧
              selections w1 = (trackingStrategy w, s, changeStrategy w)) ∨
             (a = ActChange s ∧
              selections w1 = (trackingStrategy w, domStrategy w, s)))).
  { destruct Ha as [[-> Hne]|[[-> Hne]|[-> Hne]]];
      apply String.eqb_neq in Hne; simpl;
      [unfold onTrackingStrategyChange
      |unfold onDomStrategyChange
      |unfold onChangeStrategyChange];
      munfold; simpl; rewrite Hne; eexists; (split; [reflexivity|]);
      simpl; (split; [done|]); (split; [done|]); eauto. }
  destruct Hstep as (w1 & Hrun1 & Heff & Hh1 & Hsel1).
  unfold mbind at 1, M_bind at 1. rewrite Hrun1.
  unfold change_detection. unfold mbind at 1, M_bind at 1, gets at 1.
  rewrite Heff. unfold mbind at 1, M_bind at 1.
  unfold effect_body.
  set (q := merge_param "change" (changeStrategy w1)
              (merge_param "dom" (domStrategy w1)
                 (merge_param "tracking" (trackingStrategy w1)
                    (routerParams w1)))).
  set (w2 := set_queryParams q
               (set_routerParams q
                  (log_event EvRegistryClear
                     (set_elementRegistry ∅
                        (set_pendingAfterNextRender
                           (pendingAfterNextRender w1 ++ [CbResetPublish])
                           (log_event (EvPublish [])
                              (set_arr [] (set_effectScheduled false w1)))))))).
  change ((modify (set_effectScheduled false);; reset;; router_navigate) w1)
    with (Some (tt, w2)).
  destruct (render_publishes_new_items w2)
    as (w' & Hr & Hits & Hfresh & Hsel & Hreg & Hq & He).
  { simpl. by destruct (pendingAfterNextRender w1). }
  exists w'. split; [done|]. split; [done|].
  split; [intros l Hl; rewrite <- Hh1; by apply Hfresh|].
  split; [by rewrite Hreg|]. split; [by rewrite He|].
  rewrite Hsel, Hq. unfold selections in *. simpl. unfold q.
  destruct Hsel1 as [[-> Hs]|[[-> Hs]|[-> Hs]]];
    injection Hs as -> -> ->;
    (split; [|split]); intros Heq; try discriminate Heq;
    (split; [done|]).
  - rewrite (get_merge_other "change" "tracking") by done.
    rewrite (get_merge_other "dom" "tracking") by done.
    apply get_merge_same.
  - rewrite (get_merge_other "change" "dom") by done. apply get_merge_same.
  - apply get_merge_same.
Qed.

(** ** The further properties at concrete worlds *)

Lemma reload_restores_selections_witness :
  ∃ w' w2,
    trackingStrategy (started [("tracking", "id"); ("change", "shuffle")]) ≠ "" ∧
    domStrategy (started [("tracking", "id"); ("change", "shuffle")]) ≠ "" ∧
    changeStrategy (started [("tracking", "id"); ("change", "shuffle")]) ≠ "" ∧
    router_navigate (started [("tracking", "id"); ("change", "shuffle")])
    = Some (tt, w') ∧
    App_constructor (boot (queryParams w')) = Some (tt, w2) ∧
    selections w2
    = selections (started [("tracking", "id"); ("change", "shuffle")]).
Proof.
  eexists _, _.
  split; [by vm_compute|]. split; [by vm_compute|]. split; [by vm_compute|].
  split; [vm_compute; reflexivity|]. split; [vm_compute; reflexivity|].
  eapply (reload_restores_selections
            (started [("tracking", "id"); ("change", "shuffle")]));
    try (by vm_compute); vm_compute; reflexivity.
Defined.

Lemma unknown_tracking_keys_collide_witness :
  (trackingStrategy (started [("tracking", "foo")]) ∉ known_tracking) ∧
  keys (started [("tracking", "foo")])
  = Some (replicate (length (arr (started [("tracking", "foo")]))) KUndefined) ∧
  ((2 ≤ length (arr (started [("tracking", "foo")])))%nat →
     ∃ ks, keys (started [("tracking", "foo")]) = Some ks ∧ ¬ NoDup ks).
Proof.
  assert (H : trackingStrategy (started [("tracking", "foo")]) ∉ known_tracking).
  { change (trackingStrategy (started [("tracking", "foo")])) with "foo".
    unfold known_tracking. intros H.
    repeat (apply elem_of_cons in H as [H|H]; [discriminate|]).
    by apply elem_of_nil in H. }
  split; [exact H|].
  exact (unknown_tracking_keys_collide (started [("tracking", "foo")]) H).
Defined.

Lemma trackingString_matches_selector_witness :
  heap (started [("tracking", "id")]) !! 3%nat = Some {| id := 3; value := 3 |} ∧
  ∃ shown k,
    trackingString (started [("tracking", "id")])
    = Some (shown, started [("tracking", "id")]) ∧
    trackByFn 7 3%nat (started [("tracking", "id")])
    = Some (k, started [("tracking", "id")]) ∧
    (is_Some shown ↔
       trackingStrategy (started [("tracking", "id")]) ∈ known_tracking).
Proof.
  split; [reflexivity|].
  destruct (trackingString_matches_selector 7 3%nat {| id := 3; value := 3 |}
              (started [("tracking", "id")]) eq_refl)
    as (shown & k & H1 & H2 & H3 & _).
  by exists shown, k.
Defined.

Lemma id_increment_every_tick_witness :
  trackingStrategy (after_ticks 2 [("tracking", "id")]) = "id" ∧
  changeStrategy (after_ticks 2 [("tracking", "id")]) = "increment" ∧
  items (after_ticks 2 [("tracking", "id")]) = Some (ten_items 2) ∧
  safe_integer 2 ∧ safe_integer (2 + 9) ∧
  ∃ w' prev cur,
    mutation_tick insertion_engine rnd_zero (after_ticks 2 [("tracking", "id")])
    = Some (tt, w') ∧
    items w' = Some (ten_items (2 + 1)) ∧
    trackingStrategy w' = "id" ∧ changeStrategy w' = "increment" ∧
    keys (after_ticks 2 [("tracking", "id")]) = Some prev ∧
    keys w' = Some cur ∧
    reused prev cur = KNum <$> seqZ (2 + 1) 9 ∧
    destroyed prev cur = [KNum 2] ∧
    created prev cur = [KNum (2 + 10)] ∧
    js_add (2 + 9) 1 = 2 + 10.
Proof.
  split; [reflexivity|]. split; [reflexivity|].
  split; [vm_compute; reflexivity|].
  split; [by vm_compute|]. split; [by vm_compute|].
  apply (id_increment_every_tick insertion_engine rnd_zero 2
           (after_ticks 2 [("tracking", "id")]));
    [reflexivity | reflexivity | vm_compute; reflexivity
    | by vm_compute | by vm_compute].
Defined.

Lemma reachable_snapshot_shape_witness :
  (∀ answers xs, (insertion_engine answers xs).1 ≡ₚ xs) ∧
  ∃ w0 w its,
    App_constructor (boot []) = Some (tt, w0) ∧
    perform_all insertion_engine rnd_zero
      [ActChangeDetection; ActPeriod; ActChange "shuffle"; ActReset;
       ActPeriod; ActRender; ActDestroy; ActPeriod] w0 = Some (tt, w) ∧
    items w = Some its ∧
    (length (arr w) = 0%nat ∨ length (arr w) = 10%nat) ∧
    NoDup (arr w) ∧
    Forall (λ it, value it = id it ∧ 0 ≤ id it) its ∧
    NoDup (id <$> its).
Proof.
  split; [exact insertion_engine_perm|].
  exact (reachable_snapshot_shape insertion_engine rnd_zero
           insertion_engine_perm [] _).
Defined.

Lemma reachable_keys_distinct_witness :
  (∀ answers xs, (insertion_engine answers xs).1 ≡ₚ xs) ∧
  ∃ w0 w,
    App_constructor (boot [("tracking", "id")]) = Some (tt, w0) ∧
    perform_all insertion_engine rnd_zero
      [ActChangeDetection; ActPeriod; ActChange "shuffle"; ActPeriod] w0
    = Some (tt, w) ∧
    (trackingStrategy w ∈ known_tracking →
       ∃ ks, keys w = Some ks ∧ NoDup ks ∧ length ks = length (arr w)).
Proof.
  split; [exact insertion_engine_perm|].
  exact (reachable_keys_distinct insertion_engine rnd_zero
           insertion_engine_perm [("tracking", "id")] _).
Defined.

Lemma items_never_change_witness :
  (∀ answers xs, (insertion_engine answers xs).1 ≡ₚ xs) ∧
  steady (started []) ∧
  ∃ w', perform_all insertion_engine rnd_zero
          [ActPeriod; ActChangeDetection; ActPeriod] (started [])
        = Some (tt, w') ∧
    ∀ (l : loc) it, heap (started []) !! l = Some it → heap w' !! l = Some it.
Proof.
  assert (Hs : steady (started [])).
  { apply (constructor_steady []). reflexivity. }
  split; [exact insertion_engine_perm|]. split; [exact Hs|].
  exact (items_never_change insertion_engine rnd_zero insertion_engine_perm
           _ (started []) Hs).
Defined.

Lemma one_timer_forever_witness :
  (∀ answers xs, (insertion_engine answers xs).1 ≡ₚ xs) ∧
  ∃ w0 w,
    App_constructor (boot []) = Some (tt, w0) ∧
    perform_all insertion_engine rnd_zero
      [ActChangeDetection; ActTracking "id"; ActChangeDetection; ActDestroy]
      w0 = Some (tt, w) ∧
    intervals w = [(CbMutationTick, 3000)].
Proof.
  split; [exact insertion_engine_perm|].
  exact (one_timer_forever insertion_engine rnd_zero insertion_engine_perm
           [] _).
Defined.

Lemma index_tick_reuses_all_witness :
  (∀ answers xs, (insertion_engine answers xs).1 ≡ₚ xs) ∧
  trackingStrategy (started [("change", "shuffle")]) = "index" ∧
  allocated (started [("change", "shuffle")]) ∧
  ∃ w' ks,
    mutation_tick insertion_engine rnd_zero (started [("change", "shuffle")])
    = Some (tt, w') ∧
    keys (started [("change", "shuffle")]) = Some ks ∧ keys w' = Some ks ∧
    ks = (λ i, KNum (Z.of_nat i))
           <$> seq 0 (length (arr (started [("change", "shuffle")]))) ∧
    reused ks ks = ks ∧ created ks ks = [] ∧ destroyed ks ks = [] ∧
    trackingStrategy w' = "index" ∧ allocated w'.
Proof.
  assert (Hall : allocated (started [("change", "shuffle")])).
  { unfold allocated. vm_compute. repeat constructor. }
  split; [exact insertion_engine_perm|]. split; [reflexivity|].
  split; [exact Hall|].
  exact (index_tick_reuses_all insertion_engine rnd_zero insertion_engine_perm
           (started [("change", "shuffle")]) eq_refl Hall).
Defined.

Lemma other_change_strategy_shuffles_witness :
  (∀ answers xs, (insertion_engine answers xs).1 ≡ₚ xs) ∧
  changeStrategy (started [("change", "foo")]) ≠ "increment" ∧
  ∃ w', mutation_tick insertion_engine rnd_zero (started [("change", "foo")])
        = Some (tt, w') ∧
    heap w' = heap (started [("change", "foo")]) ∧
    arr w' ≡ₚ arr (started [("change", "foo")]) ∧
    (randomCalls (started [("change", "foo")]) ≤ randomCalls w')%nat ∧
    log w' = log (started [("change", "foo")]) ++ [EvPublish (arr w')].
Proof.
  assert (Hc : changeStrategy (started [("change", "foo")]) ≠ "increment")
    by (by vm_compute).
  split; [exact insertion_engine_perm|]. split; [exact Hc|].
  exact (other_change_strategy_shuffles insertion_engine rnd_zero
           insertion_engine_perm (started [("change", "foo")]) Hc).
Defined.

Lemma index_increment_rebinds_all_witness :
  trackingStrategy (started []) = "index" ∧
  changeStrategy (started []) = "increment" ∧
  items (started []) = Some (ten_items 0) ∧
  Forall (λ it, safe_integer (value it)) (ten_items 0) ∧
  ∃ w' its',
    mutation_tick insertion_engine rnd_zero (started []) = Some (tt, w') ∧
    items w' = Some its' ∧
    keys w' = keys (started []) ∧
    ∀ (i : nat) it, ten_items 0 !! i = Some it →
      ∃ it', its' !! i = Some it' ∧
             value it' = js_add (value it) 1 ∧
             value it' = value it + 1 ∧ value it' ≠ value it.
Proof.
  assert (Hs : Forall (λ it, safe_integer (value it)) (ten_items 0)).
  { eapply Forall_impl; [apply (ten_items_safe 0); by vm_compute|].
    by intros it [_ ?]. }
  split; [reflexivity|]. split; [reflexivity|]. split; [reflexivity|].
  split; [exact Hs|].
  apply (index_increment_rebinds_all insertion_engine rnd_zero (started [])
           (ten_items 0)); [reflexivity | reflexivity | reflexivity | exact Hs].
Defined.

Lemma stale_value_highlights_every_render_witness :
  elements (page_showing "5" (Some "4")) !! 0%nat
  = Some {| innerText := "5"; inputValue := None; classList := ∅ |} ∧
  domValue 0 (page_showing "5" (Some "4"))
  ≠ elementRegistry (world (page_showing "5" (Some "4"))) !! 0%nat ∧
  timeouts (Nat.iter 3 (afterEveryRender_hook 0) (page_showing "5" (Some "4")))
  = timeouts (page_showing "5" (Some "4"))
    ++ replicate 3 (0%nat, "binding-highlight").
Proof.
  assert (He : elements (page_showing "5" (Some "4")) !! 0%nat
               = Some {| innerText := "5"; inputValue := None;
                         classList := ∅ |}) by reflexivity.
  assert (Hne : domValue 0 (page_showing "5" (Some "4"))
                ≠ elementRegistry (world (page_showing "5" (Some "4"))) !! 0%nat)
    by (by vm_compute).
  split; [exact He|]. split; [exact Hne|].
  exact (proj1 (proj2 (stale_value_highlights_every_render 3 0 _
                         (page_showing "5" (Some "4")) He Hne))).
Defined.

Lemma markers_are_transient_witness :
  pending_covers (blank_page (started [])) ∧
  timeouts (drain (dom_steps
                     [DomCreate 0 "5" None; DomEveryRender 0; DomFirstRender 0;
                      DomText 0 "6"; DomEveryRender 0; DomTimeout]
                     (blank_page (started [])))) = [] ∧
  ∀ (el : nat) (e : Element),
    elements (drain (dom_steps
                       [DomCreate 0 "5" None; DomEveryRender 0;
                        DomFirstRender 0; DomText 0 "6"; DomEveryRender 0;
                        DomTimeout]
                       (blank_page (started [])))) !! el = Some e →
    classList e = ∅.
Proof.
  assert (Hp : pending_covers (blank_page (started []))).
  { intros el e c He. simpl in He. by rewrite lookup_empty in He. }
  split; [exact Hp|].
  exact (markers_are_transient _ (blank_page (started [])) Hp).
Defined.

Lemma second_addClass_does_not_prolong_witness :
  elements (page_showing "5" None) !! 0%nat
  = Some {| innerText := "5"; inputValue := None; classList := ∅ |} ∧
  timeouts (page_showing "5" None) = [] ∧
  timeouts (timeout_fires
              (addClass 0 "halo-active"
                 (addClass 0 "halo-active" (page_showing "5" None))))
  = [(0%nat, "halo-active")].
Proof.
  split; [reflexivity|]. split; [reflexivity|].
  exact (proj1 (second_addClass_does_not_prolong 0 "halo-active" _
                  (page_showing "5" None) eq_refl eq_refl)).
Defined.


Lemma strategy_change_resets_witness :
  trackingStrategy (started []) ≠ "id" ∧
  ∃ w',
    (perform insertion_engine rnd_zero (ActTracking "id");; change_detection)
      (started []) = Some (tt, w') ∧
    items w' = Some (ten_items 0) ∧
    elementRegistry w' = ∅.
Proof.
  assert (Hne : trackingStrategy (started []) ≠ "id") by (by vm_compute).
  split; [exact Hne|].
  destruct (strategy_change_resets insertion_engine rnd_zero
              (ActTracking "id") "id" (started [])
              (or_introl (conj eq_refl Hne)))
    as (w' & Hrun & Hits & _ & Hreg & _).
  by exists w'.
Defined.
